(** * LineMatchingResult: the per-frame line matching aggregate

    A shallow embedding of [Src/Representations/Modeling/LineMatchingResult.h]
    and the properties its description states about it.

    The header computes on C++ [double] and [float].  The embedding is
    written once over an interface [Scalar] of the arithmetic the header
    calls (so that every structural fact holds for whatever implements the
    arithmetic), and instantiated at the real numbers for the facts that
    need the laws of exact arithmetic. *)

From Stdlib Require Import ZArith Reals Lra Lia Bool.
From stdpp Require Import base option list strings pretty gmap.

Set Default Goal Selector "!".

(** ** The arithmetic interface *)

(** What the header asks of its scalars: [std::atan2], the square root
    behind Eigen's [norm()], the sine and cosine behind [rotate], the ring
    operations of vector subtraction, and the comparisons of a likelihood
    with a threshold.  The conversion [cast<double>()] of a [float] is exact,
    so a [Pose2f] component is represented by the [double] it converts to. *)
Class Scalar : Type := {
  num : Type;
  zero : num;
  nadd : num -> num -> num;
  nsub : num -> num -> num;
  nmul : num -> num -> num;
  nneg : num -> num;
  nsqrt : num -> num;
  natan2 : num -> num -> num;
  ncos : num -> num;
  nsin : num -> num;
  nltb : num -> num -> bool;
  nleb : num -> num -> bool
}.

(** The comparisons form a total preorder with its strict part; true of the
    reals, and of IEEE numbers as long as no NaN is compared. *)
Class ScalarOrder (F : Scalar) : Prop := {
  nltb_trans : forall a b c : num,
    nltb a b = true -> nltb b c = true -> nltb a c = true;
  nltb_negtrans : forall a b c : num,
    nltb a b = false -> nltb b c = false -> nltb a c = false;
  nleb_nltb_trans : forall a b c : num,
    nleb a b = true -> nltb b c = true -> nltb a c = true
}.

(** ** 32-bit integers and [memset] *)

Definition int_modulus : Z := (2 ^ 32)%Z.

(** The value of a 32-bit pattern read as a signed [int]. *)
Definition to_int (z : Z) : Z :=
  let u := (z mod int_modulus)%Z in
  if (u <? 2 ^ 31)%Z then u else (u - int_modulus)%Z.

Definition sizeof_int : nat := 4.

(** The bytes of an object none of which was written yet: each of them
    is indeterminate, [None]. *)
Definition uninitialised (size : nat) : list (option Z) := replicate size None.

(** [memset(p, c, size)] on the bytes of the object at [p]: the first
    [size] bytes become [(unsigned char) c], the others stay as they are;
    writing past the end of the object has no defined result. *)
Definition memset (object : list (option Z)) (c : Z) (size : nat)
  : option (list (option Z)) :=
  if size <=? length object
  then Some (replicate size (Some (c mod 256)%Z) ++ drop size object)
  else None.

(** The [int] stored in four bytes, least significant byte first.  There
    is none where a byte is missing or indeterminate. *)
Definition int_of_bytes (bs : list (option Z)) : option Z :=
  match bs with
  | Some b0 :: Some b1 :: Some b2 :: Some b3 :: _ =>
      Some (to_int (b0 + 256 * (b1 + 256 * (b2 + 256 * b3))))
  | _ => None
  end.

(** An [int[n]] read from the bytes of the array. *)
Fixpoint ints_of_bytes (n : nat) (bs : list (option Z)) : option (list Z) :=
  match n with
  | O => Some []
  | S n' =>
      match int_of_bytes bs, ints_of_bytes n' (drop sizeof_int bs) with
      | Some v, Some vs => Some (v :: vs)
      | _, _ => None
      end
  end.

(** [enum { maxNumberOfLineObservations = 8 }] *)
Definition maxNumberOfLineObservations : nat := 8.

(** [sizeof(lineCorrespondences)] for [int lineCorrespondences[8]]. *)
Definition sizeof_lineCorrespondences : nat :=
  maxNumberOfLineObservations * sizeof_int.

(** The member [int lineCorrespondences[8]], which no initialiser touches,
    after [memset(lineCorrespondences, c, size)]. *)
Definition lineCorrespondences_memset (c : Z) (size : nat) : option (list Z) :=
  match memset (uninitialised sizeof_lineCorrespondences) c size with
  | Some bytes => ints_of_bytes maxNumberOfLineObservations bytes
  | None => None
  end.

Section Model.

Context {F : Scalar}.

(** ** Vectors, poses and field lines *)

(** [Vector2d] (and [Vector2f], see [Scalar]). *)
Record Vector2 : Type := mkVector2 { vx : num; vy : num }.

(** [Pose2f]: a heading and a position. *)
Record Pose2f : Type := mkPose2f { rotation : num; translation : Vector2 }.

(** [Vector3d]. *)
Record Vector3 : Type := mkVector3 { v3x : num; v3y : num; v3z : num }.

(** [Matrix2d] and [Matrix3d], by rows. *)
Definition Matrix2d : Type := (Vector2 * Vector2)%type.
Definition Matrix3d : Type := (Vector3 * Vector3 * Vector3)%type.

(** [STREAMABLE(FieldLine, ..., start, end, cameraHeight)] *)
Record FieldLine : Type := mkFieldLine {
  fl_start : Vector2;
  fl_end : Vector2;
  fl_cameraHeight : num
}.

(** [STREAMABLE(PoseHypothesis, ..., pose, lineCorrespondences)] *)
Record PoseHypothesis : Type := mkPoseHypothesis {
  ph_pose : Pose2f;
  ph_lineCorrespondences : list Z
}.

(** [STREAMABLE(PoseHypothesisInterval, ..., start, end, lineCorrespondences)] *)
Record PoseHypothesisInterval : Type := mkPoseHypothesisInterval {
  phi_start : Pose2f;
  phi_end : Pose2f;
  phi_lineCorrespondences : list Z
}.

(** The value of a default-constructed [Pose2f]: heading 0 at the origin.
    [Tools/Math/Pose2f.h] is not among the sources. *)
Definition Pose2f_default : Pose2f := mkPose2f zero (mkVector2 zero zero).

(** [PoseHypothesis() { memset(lineCorrespondences, 0, sizeof(lineCorrespondences)); }]:
    the value constructed, if its slots all have one. *)
Definition PoseHypothesis_default : option PoseHypothesis :=
  match lineCorrespondences_memset 0 sizeof_lineCorrespondences with
  | Some lc => Some (mkPoseHypothesis Pose2f_default lc)
  | None => None
  end.

(** [PoseHypothesisInterval() { memset(lineCorrespondences, 0, sizeof(lineCorrespondences)); }] *)
Definition PoseHypothesisInterval_default : option PoseHypothesisInterval :=
  match lineCorrespondences_memset 0 sizeof_lineCorrespondences with
  | Some lc => Some (mkPoseHypothesisInterval Pose2f_default Pose2f_default lc)
  | None => None
  end.

(** The loop of [setLineCorrespondences], from index [i] for [n] rounds:
    [lineCorrespondences[i] = otherLineCorrespondences[i]].  Reading the
    caller's array past its end has no defined result: [None]. *)
Fixpoint copyLineCorrespondences (n i : nat) (other lc : list Z)
  : option (list Z) :=
  match n with
  | O => Some lc
  | S n' =>
      match other !! i with
      | Some v => copyLineCorrespondences n' (S i) other (<[i:=v]> lc)
      | None => None
      end
  end.

Definition setLineCorrespondences (h : PoseHypothesis) (other : list Z)
  : option PoseHypothesis :=
  match copyLineCorrespondences maxNumberOfLineObservations 0 other
          (ph_lineCorrespondences h) with
  | Some lc => Some (mkPoseHypothesis (ph_pose h) lc)
  | None => None
  end.

(** ** Vector arithmetic used by the header *)

(** [a - b] on [Vector2d]. *)
Definition Vector2_sub (a b : Vector2) : Vector2 :=
  mkVector2 (nsub (vx a) (vx b)) (nsub (vy a) (vy b)).

(** [a + b] on [Vector2d]. *)
Definition Vector2_add (a b : Vector2) : Vector2 :=
  mkVector2 (nadd (vx a) (vx b)) (nadd (vy a) (vy b)).

(** Eigen's [norm()]: the square root of the sum of the squared
    coefficients. *)
Definition Vector2_norm (v : Vector2) : num :=
  nsqrt (nadd (nmul (vx v) (vx v)) (nmul (vy v) (vy v))).

(** Modelled from the spec: [angle()] of the vector extensions behind
    [Tools/Math/Eigen.h], which is not among the sources.  It is the
    bearing, the angle of the point vector in the observer's frame under
    the standard 2D polar decomposition. *)
Definition Vector2_angle (v : Vector2) : num := natan2 (vy v) (vx v).

(** Modelled from the spec: [rotate(alpha)] of the same extensions, the
    rotation of a 2D vector by the angle [alpha]. *)
Definition Vector2_rotate (alpha : num) (v : Vector2) : Vector2 :=
  let ca := ncos alpha in
  let sa := nsin alpha in
  mkVector2 (nsub (nmul ca (vx v)) (nmul sa (vy v)))
            (nadd (nmul sa (vx v)) (nmul ca (vy v))).

(** ** The spherical observation model *)

(** [Vector2d getSphericalCoordinatesForPointObservation(pointInRelativeCoords, cameraHeight)] *)
Definition getSphericalCoordinatesForPointObservation
    (pointInRelativeCoords : Vector2) (cameraHeight : num) : Vector2 :=
  mkVector2 (natan2 cameraHeight (Vector2_norm pointInRelativeCoords))
            (Vector2_angle pointInRelativeCoords).

(** [Vector2d getSphericalCoordinatesForPointObservation(pose, pointInAbsoluteCoords, cameraHeight)] *)
Definition getSphericalCoordinatesForPointObservation_pose
    (pose : Pose2f) (pointInAbsoluteCoords : Vector2) (cameraHeight : num)
  : Vector2 :=
  let pointInRelativeCoords :=
    Vector2_sub pointInAbsoluteCoords (translation pose) in
  let pointInRelativeCoords :=
    Vector2_rotate (nneg (rotation pose)) pointInRelativeCoords in
  getSphericalCoordinatesForPointObservation pointInRelativeCoords cameraHeight.

(** [FieldLine getSphericalCoordinatesForPointObservation(fieldLineInRelativeCoords)] *)
Definition getSphericalCoordinatesForPointObservation_line
    (fieldLineInRelativeCoords : FieldLine) : FieldLine :=
  {| fl_start :=
       getSphericalCoordinatesForPointObservation
         (fl_start fieldLineInRelativeCoords)
         (fl_cameraHeight fieldLineInRelativeCoords);
     fl_end :=
       getSphericalCoordinatesForPointObservation
         (fl_end fieldLineInRelativeCoords)
         (fl_cameraHeight fieldLineInRelativeCoords);
     fl_cameraHeight := fl_cameraHeight fieldLineInRelativeCoords |}.

(** [FieldLine getSphericalCoordinatesForPointObservation(pose, fieldLineInAbsoluteCoords)] *)
Definition getSphericalCoordinatesForPointObservation_pose_line
    (pose : Pose2f) (fieldLineInAbsoluteCoords : FieldLine) : FieldLine :=
  {| fl_start :=
       getSphericalCoordinatesForPointObservation_pose pose
         (fl_start fieldLineInAbsoluteCoords)
         (fl_cameraHeight fieldLineInAbsoluteCoords);
     fl_end :=
       getSphericalCoordinatesForPointObservation_pose pose
         (fl_end fieldLineInAbsoluteCoords)
         (fl_cameraHeight fieldLineInAbsoluteCoords);
     fl_cameraHeight := fl_cameraHeight fieldLineInAbsoluteCoords |}.

(** The point that the pose overload hands to the point projection: the
    absolute point translated by the negative pose position, then rotated
    by the negative pose heading. *)
Definition pointRelativeToPose (pose : Pose2f) (pointInAbsoluteCoords : Vector2)
  : Vector2 :=
  Vector2_rotate (nneg (rotation pose))
    (Vector2_sub pointInAbsoluteCoords (translation pose)).

(** The same change of frame on both endpoints of a line. *)
Definition lineRelativeToPose (pose : Pose2f) (l : FieldLine) : FieldLine :=
  {| fl_start := pointRelativeToPose pose (fl_start l);
     fl_end := pointRelativeToPose pose (fl_end l);
     fl_cameraHeight := fl_cameraHeight l |}.

(** Modelled from the spec: the inverse pose transformation, which the
    header does not contain: rotate by the pose heading, then translate by
    the pose position. *)
Definition pointFromPose (pose : Pose2f) (pointInRelativeCoords : Vector2)
  : Vector2 :=
  Vector2_add (Vector2_rotate (rotation pose) pointInRelativeCoords)
    (translation pose).

(** The inverse change of frame on both endpoints of a line. *)
Definition lineFromPose (pose : Pose2f) (l : FieldLine) : FieldLine :=
  {| fl_start := pointFromPose pose (fl_start l);
     fl_end := pointFromPose pose (fl_end l);
     fl_cameraHeight := fl_cameraHeight l |}.

(** ** The aggregate *)

Record LineMatchingResult : Type := mkLineMatchingResult {
  observationsSphericalCoords : list FieldLine;
  fieldLines : list FieldLine;
  observations : list FieldLine;
  poseHypothesis : list PoseHypothesis;
  poseHypothesisIntervals : list PoseHypothesisInterval;
  onlyObservedOneFieldLine : bool
}.

(** [void reset()] *)
Definition reset (r : LineMatchingResult) : LineMatchingResult :=
  {| observationsSphericalCoords := [];
     fieldLines := fieldLines r;
     observations := [];
     poseHypothesis := [];
     poseHypothesisIntervals := [];
     onlyObservedOneFieldLine := false |}.

(** [LineMatchingResult() { reset(); }] on freshly constructed members. *)
Definition LineMatchingResult_default : LineMatchingResult :=
  reset (mkLineMatchingResult [] [] [] [] [] false).

(** [bool containsMatches() const] *)
Definition containsMatches (r : LineMatchingResult) : bool :=
  (0 <? length (poseHypothesis r)) || (0 <? length (poseHypothesisIntervals r)).

(** [bool containsUniqueMatches() const] *)
Definition containsUniqueMatches (r : LineMatchingResult) : bool :=
  0 <? length (poseHypothesis r).

(** [bool containsNonUniqueMatches() const] *)
Definition containsNonUniqueMatches (r : LineMatchingResult) : bool :=
  0 <? length (poseHypothesisIntervals r).

(** A member function seen from its caller: the value it returns and the
    aggregate it leaves behind. *)
Definition Method (A : Type) : Type :=
  LineMatchingResult -> A * LineMatchingResult.

(** A [const] member function reads the aggregate and hands it back. *)
Definition call_const {A : Type} (f : LineMatchingResult -> A) : Method A :=
  fun r => (f r, r).

(** A [void] member function that is not [const]. *)
Definition call_mutator (f : LineMatchingResult -> LineMatchingResult)
  : Method unit :=
  fun r => (tt, f r).

(** Modelled from the spec: [calculateObservationsSphericalCoords()], only
    declared in the header.  The cached projections are derived purely from
    [observations], by the line projection on relative coordinates. *)
Definition calculateObservationsSphericalCoords (r : LineMatchingResult)
  : LineMatchingResult :=
  {| observationsSphericalCoords :=
       map getSphericalCoordinatesForPointObservation_line (observations r);
     fieldLines := fieldLines r;
     observations := observations r;
     poseHypothesis := poseHypothesis r;
     poseHypothesisIntervals := poseHypothesisIntervals r;
     onlyObservedOneFieldLine := onlyObservedOneFieldLine r |}.

(** ** Correspondence search and scoring *)

Section CorrespondenceSearch.

(** The Gaussian score of an observed line against an expected line, both
    in spherical coordinates, start against start and end against end,
    under a pose covariance and a measurement precision matrix.  Its
    analytic form is left open by the description of the engine. *)
Variable gaussianLikelihood :
  Matrix3d -> Matrix2d -> FieldLine -> FieldLine -> num.

(** A scored pairing of observation [c_obs] with map line [c_map]. *)
Record Candidate : Type := mkCandidate {
  c_obs : nat;
  c_map : nat;
  c_line : FieldLine;
  c_lik : num
}.

(** The same line with its endpoints in the other order. *)
Definition swapEndpoints (l : FieldLine) : FieldLine :=
  {| fl_start := fl_end l; fl_end := fl_start l;
     fl_cameraHeight := fl_cameraHeight l |}.

(** Modelled from the spec: step 2 of the search, not in the sources.  Both
    endpoint orderings are tried and the better one kept. *)
Definition lineLikelihood (cov : Matrix3d) (prec : Matrix2d)
    (observed expected : FieldLine) : num :=
  let direct := gaussianLikelihood cov prec observed expected in
  let swapped := gaussianLikelihood cov prec observed (swapEndpoints expected) in
  if nltb direct swapped then swapped else direct.

(** Modelled from the spec: steps 1 and 2.  Every map line is expressed
    relative to the candidate pose and projected; every observation's cached
    projection is scored against every one of them.  Candidates come in
    order of observation index, then map index. *)
Definition scores (pose : Pose2f) (cov : Matrix3d) (prec : Matrix2d)
    (observed map : list FieldLine) : list Candidate :=
  concat
    (imap (fun i o =>
       imap (fun j m =>
         mkCandidate i j m
           (lineLikelihood cov prec o
              (getSphericalCoordinatesForPointObservation_pose_line pose m)))
         map)
       observed).

(** Modelled from the spec: step 3, a correspondence is accepted only if
    its likelihood exceeds the threshold. *)
Definition exceeds (likelihoodThreshold : num) (c : Candidate) : bool :=
  nltb likelihoodThreshold (c_lik c).

(** The better of the best so far and the next candidate; the earlier one
    stays on a tie, so that the lower observation index wins. *)
Definition better (b : option Candidate) (c : Candidate) : option Candidate :=
  match b with
  | None => Some c
  | Some b' => if nltb (c_lik b') (c_lik c) then Some c else Some b'
  end.

Definition best (cs : list Candidate) : option Candidate :=
  fold_left better cs None.

(** How the best-so-far above a lower threshold relates to the one above
    the threshold [t]: they agree once the latter exists, and before that
    the former does not exceed [t]. *)
Definition ahead (t : num) (o1 o2 : option Candidate) : Prop :=
  match o2 with
  | Some b2 => o1 = Some b2 /\ exceeds t b2 = true
  | None =>
      match o1 with
      | Some b1 => exceeds t b1 = false
      | None => True
      end
  end.

(** Two candidates compete for the same observation or the same map line. *)
Definition conflicts (b c : Candidate) : bool :=
  (c_obs b =? c_obs c) || (c_map b =? c_map c).

(** Modelled from the spec: step 4, the higher-likelihood pair is assigned
    first, then the remaining observations are searched against the
    remaining map lines.  [fuel] bounds the number of rounds. *)
Fixpoint resolve (fuel : nat) (cs : list Candidate) : list Candidate :=
  match fuel with
  | O => []
  | S fuel' =>
      match best cs with
      | None => []
      | Some b =>
          b :: resolve fuel' (List.filter (fun c => negb (conflicts b c)) cs)
      end
  end.

(** Neither of two candidates is strictly better than the other. *)
Definition equallyGood (a b : Candidate) : bool :=
  negb (nltb (c_lik a) (c_lik b)) && negb (nltb (c_lik b) (c_lik a)).

(** Some observation has several equally good candidates. *)
Definition ambiguous (cs : list Candidate) : bool :=
  existsb (fun a =>
    existsb (fun b =>
      (c_obs a =? c_obs b) && negb (c_map a =? c_map b) && equallyGood a b)
      cs) cs.

(** The accepted correspondences of a call, in matched order. *)
Definition acceptedCorrespondences (r : LineMatchingResult)
    (localizationHypothesis : Pose2f) (poseCovariance : Matrix3d)
    (likelihoodThreshold : num)
    (sphericalPointMeasurementCovariance_inv : Matrix2d) : list Candidate :=
  let observed :=
    take maxNumberOfLineObservations (observationsSphericalCoords r) in
  let accepted :=
    List.filter (exceeds likelihoodThreshold)
      (scores localizationHypothesis poseCovariance
         sphericalPointMeasurementCovariance_inv observed (fieldLines r)) in
  resolve (length accepted) accepted.

(** What a call hands back: the returned flag, the contents of the
    out-parameter, and whether a diagnostic was raised. *)
Record CorrespondenceResult : Type := mkCorrespondenceResult {
  cr_return : bool;
  cr_correspondences : list FieldLine;
  cr_warning : bool
}.

(** Modelled from the spec: [getCorrespondencesForLocalizationHypothesis],
    only declared in the header.  It returns whether at least one
    correspondence was accepted and fills the out-parameter with the map
    lines of the accepted pairs in matched order; the two flags reach only
    the diagnostic. *)
Definition getCorrespondencesForLocalizationHypothesis
    (r : LineMatchingResult)
    (localizationHypothesis : Pose2f) (poseCovariance : Matrix3d)
    (likelihoodThreshold : num)
    (sphericalPointMeasurementCovariance_inv : Matrix2d)
    (correspondencesForObservations : list FieldLine)
    (displayWarning requestedByLocalization : bool) : CorrespondenceResult :=
  let matched :=
    acceptedCorrespondences r localizationHypothesis poseCovariance
      likelihoodThreshold sphericalPointMeasurementCovariance_inv in
  {| cr_return := 0 <? length matched;
     cr_correspondences := map c_line matched;
     cr_warning :=
       displayWarning &&
       ambiguous
         (List.filter (exceeds likelihoodThreshold)
            (scores localizationHypothesis poseCovariance
               sphericalPointMeasurementCovariance_inv
               (take maxNumberOfLineObservations (observationsSphericalCoords r))
               (fieldLines r))) |}.

End CorrespondenceSearch.

(** ** The values of a hypothesis *)

(** The values of [PoseHypothesis] that construction, the member function
    and in-range writes to the public members give. *)
Inductive constructedHypothesis : PoseHypothesis -> Prop :=
  | ch_default h :
      PoseHypothesis_default = Some h ->
      constructedHypothesis h
  | ch_set h other h' :
      constructedHypothesis h ->
      setLineCorrespondences h other = Some h' ->
      constructedHypothesis h'
  | ch_pose h p :
      constructedHypothesis h ->
      constructedHypothesis (mkPoseHypothesis p (ph_lineCorrespondences h))
  | ch_slot h i v :
      constructedHypothesis h ->
      i < maxNumberOfLineObservations ->
      constructedHypothesis
        (mkPoseHypothesis (ph_pose h) (<[i:=v]> (ph_lineCorrespondences h))).

End Model.

(** ** Exact arithmetic: the real numbers *)

Definition Rltb (a b : R) : bool := if Rlt_dec a b then true else false.
Definition Rleb (a b : R) : bool := if Rle_dec a b then true else false.

(** [atan2(y, x)]: the angle in (-PI, PI] of the point (x, y). *)
Definition Ratan2 (y x : R) : R :=
  if Rlt_dec 0 x then atan (y / x)
  else if Rlt_dec x 0 then
    if Rle_dec 0 y then (atan (y / x) + PI)%R else (atan (y / x) - PI)%R
  else if Rlt_dec 0 y then (PI / 2)%R
  else if Rlt_dec y 0 then (- (PI / 2))%R
  else 0%R.

#[export] Instance R_scalar : Scalar := {|
  num := R;
  zero := 0%R;
  nadd := Rplus;
  nsub := Rminus;
  nmul := Rmult;
  nneg := Ropp;
  nsqrt := sqrt;
  natan2 := Ratan2;
  ncos := cos;
  nsin := sin;
  nltb := Rltb;
  nleb := Rleb
|}.

(** A map of one line and a frame in which it was seen and matched. *)
Definition centreLine : FieldLine (F := R_scalar) :=
  mkFieldLine (mkVector2 0%R (-3000)%R) (mkVector2 0%R 3000%R) 0%R.

Definition seenLine : FieldLine (F := R_scalar) :=
  mkFieldLine (mkVector2 1000%R (-3000)%R) (mkVector2 1000%R 3000%R) 500%R.

Definition matchedFrame : LineMatchingResult (F := R_scalar) :=
  {| observationsSphericalCoords :=
       [getSphericalCoordinatesForPointObservation_line seenLine];
     fieldLines := [centreLine];
     observations := [seenLine];
     poseHypothesis :=
       [mkPoseHypothesis Pose2f_default [0; 0; 0; 0; 0; 0; 0; 0]%Z];
     poseHypothesisIntervals := [];
     onlyObservedOneFieldLine := true |}.

(** A candidate pose one metre in front of the centre line, and a score
    that rates every pairing alike. *)
Definition nearPose : Pose2f (F := R_scalar) :=
  mkPose2f 0%R (mkVector2 (-1000)%R 0%R).

Definition unitPrecision : Matrix2d (F := R_scalar) :=
  (mkVector2 1%R 0%R, mkVector2 0%R 1%R).

Definition unitCovariance : Matrix3d (F := R_scalar) :=
  (mkVector3 1%R 0%R 0%R, mkVector3 0%R 1%R 0%R, mkVector3 0%R 0%R 1%R).

Definition evenLikelihood
  : Matrix3d -> Matrix2d -> FieldLine -> FieldLine -> num (Scalar := R_scalar) :=
  fun _ _ _ _ => 1%R.

(** * The image view and the team info drawing

    [Controller/Views/ImageView.cpp] and
    [Representations/Infrastructure/TeamInfo.cpp]. *)

(** ** [int] and [unsigned] arithmetic *)

Definition int_add (a b : Z) : Z := to_int (a + b).
Definition int_sub (a b : Z) : Z := to_int (a - b).
Definition int_mul (a b : Z) : Z := to_int (a * b).
Definition int_shl (a n : Z) : Z := to_int (Z.shiftl a n).
Definition int_shr (a n : Z) : Z := Z.shiftr a n.

(** The value of an [int] converted to [unsigned]. *)
Definition to_unsigned (z : Z) : Z := (z mod int_modulus)%Z.

(** An array indexed by an [int]: there is no element below 0 or past the
    end. *)
Definition array_at {A : Type} (l : list A) (i : Z) : option A :=
  if (i <? 0)%Z then None else l !! Z.to_nat i.

(** ** [ImageWidget::copyImage] *)

(** [Image::Pixel], the channels that the view reads, each an
    [unsigned char]. *)
Record Pixel : Type := mkPixel { px_y : Z; px_cb : Z; px_cr : Z }.

Definition is_byte (z : Z) : Prop := (0 <= z < 256)%Z.

Definition Pixel_bytes (px : Pixel) : Prop :=
  is_byte (px_y px) /\ is_byte (px_cb px) /\ is_byte (px_cr px).

(** The colour conversion in the inner loop of [copyImage]:
    [yImage = int(cur->y) << 14; uImage = int(cur->cr) - 128;
     vImage = int(cur->cb) - 128; r = (yImage + 22972 * uImage) >> 14; ...] *)
Definition copyImage_rgb (px : Pixel) : Z * Z * Z :=
  let yImage := int_shl (px_y px) 14 in
  let uImage := int_sub (px_cr px) 128 in
  let vImage := int_sub (px_cb px) 128 in
  let r := int_shr (int_add yImage (int_mul 22972 uImage)) 14 in
  let g := int_shr (int_sub (int_sub yImage (int_mul 5662 vImage))
                            (int_mul 11706 uImage)) 14 in
  let b := int_shr (int_add yImage (int_mul 29016 vImage)) 14 in
  (r, g, b).

(** The same conversion as [mouseMoveEvent] writes it for the tool tip,
    with its constants [factor1] to [factor4]. *)
Definition factor1 : Z := 29016.
Definition factor2 : Z := 5662.
Definition factor3 : Z := 22972.
Definition factor4 : Z := 11706.

Definition mouseMoveEvent_rgb (pixel : Pixel) : Z * Z * Z :=
  let yImage := int_shl (px_y pixel) 14 in
  let uImage := int_sub (px_cr pixel) 128 in
  let vImage := int_sub (px_cb pixel) 128 in
  let r := int_shr (int_add yImage (int_mul factor3 uImage)) 14 in
  let g := int_shr (int_sub (int_sub yImage (int_mul factor2 vImage))
                            (int_mul factor4 uImage)) 14 in
  let b := int_shr (int_add yImage (int_mul factor1 vImage)) 14 in
  (r, g, b).

(** [c < 0 ? 0 : c > 255 ? 255 : c] *)
Definition clampChannel (c : Z) : Z :=
  if (c <? 0)%Z then 0%Z else if (c >? 255)%Z then 255%Z else c.

(** [(r..) << 16 | (g..) << 8 | (b..) | 0xff000000], an [unsigned]. *)
Definition packRGB (r g b : Z) : Z :=
  to_unsigned
    (Z.lor
       (Z.lor
          (Z.lor (int_shl (clampChannel r) 16) (int_shl (clampChannel g) 8))
          (clampChannel b))
       0xff000000).

(** What the first loop of [copyImage] stores for one pixel. *)
Definition copyImage_pixel (px : Pixel) : Z :=
  let '(r, g, b) := copyImage_rgb px in packRGB r g b.

(** The channels read back from a stored pixel:
    bits 16 to 23, bits 8 to 15 and bits 0 to 7 of [*p]. *)
Definition red_of (p : Z) : Z := Z.land (Z.shiftr p 16) 0xff.
Definition green_of (p : Z) : Z := Z.land (Z.shiftr p 8) 0xff.
Definition blue_of (p : Z) : Z := Z.land p 0xff.

(** [Image]: its size, its time stamp and the pixel [srcImage[y][x]]. *)
Record Image : Type := mkImage {
  img_width : nat;
  img_height : nat;
  img_timeStamp : Z;
  img_pixel : nat -> nat -> Pixel
}.

Section CopyImage.

(** [imageView.gain != 1.f], and [(int)(gain * (float) c)] for a channel
    value [c], which is computed in [float]. *)
Variable gainIsOne : bool.
Variable gainChannel : Z -> Z.

(** The pixels of the image in the order of the two nested loops. *)
Definition convertedPixels (srcImage : Image) : list Z :=
  flat_map
    (fun y =>
       map (fun x => copyImage_pixel (img_pixel srcImage y x))
           (seq 0 (img_width srcImage)))
    (seq 0 (img_height srcImage)).

(** [*p++ = v] for each of [vals] from the start of the buffer; writing
    past the end of the buffer has no defined result. *)
Definition writeFromStart (vals bits : list Z) : option (list Z) :=
  if length vals <=? length bits
  then Some (vals ++ drop (length vals) bits)
  else None.

(** The body of the second loop on one stored pixel. *)
Definition gainPixel (p : Z) : Z :=
  packRGB (gainChannel (red_of p)) (gainChannel (green_of p))
          (gainChannel (blue_of p)).

(** [for (pEnd = p + width * height; p < pEnd; ++p) { ...; *p++ = ...; }]:
    the store advances [p] and so does the loop header.  The pointers are
    their indices into the buffer, so that stepping past [pEnd] ends the
    loop and does nothing else. *)
Fixpoint gainLoop (fuel p pEnd : nat) (bits : list Z) : list Z :=
  match fuel with
  | O => bits
  | S fuel' =>
      if p <? pEnd then
        match bits !! p with
        | Some v => gainLoop fuel' (p + 1 + 1) pEnd (<[p := gainPixel v]> bits)
        | None => bits
        end
      else bits
  end.

(** [void ImageWidget::copyImage(const Image& srcImage)] on the pixel
    buffer [imageData->bits()]. *)
Definition copyImage (srcImage : Image) (bits : list Z) : option (list Z) :=
  let size := img_width srcImage * img_height srcImage in
  match writeFromStart (convertedPixels srcImage) bits with
  | None => None
  | Some bits' =>
      if gainIsOne then Some bits'
      else Some (gainLoop size 0 size bits')
  end.

End CopyImage.

(** ** Zooming and panning the image view *)

(** The keys that [keyPressEvent] tells apart. *)
Inductive Key : Type :=
  | Key_PageUp | Key_Plus | Key_PageDown | Key_Minus
  | Key_Up | Key_Down | Key_Left | Key_Right | Key_other.

(** The members [zoom] and [offset] of the widget; [0.1f] and [3.f] are
    taken as the real numbers 1/10 and 3. *)
Record ViewState : Type := mkViewState {
  zoom : R;
  offset_x : Z;
  offset_y : Z
}.

(** [void ImageWidget::keyPressEvent(QKeyEvent* event)] *)
Definition keyPressEvent (key : Key) (s : ViewState) : ViewState :=
  match key with
  | Key_PageUp | Key_Plus =>
      let z := if Rlt_dec (zoom s) 3 then (zoom s + 1 / 10)%R else zoom s in
      let z := if Rgt_dec z 3 then 3%R else z in
      mkViewState z (offset_x s) (offset_y s)
  | Key_PageDown | Key_Minus =>
      let z := if Rgt_dec (zoom s) (1 / 10) then (zoom s - 1 / 10)%R else zoom s in
      mkViewState z (offset_x s) (offset_y s)
  | Key_Up => mkViewState (zoom s) (int_add (offset_x s) 0) (int_add (offset_y s) 20)
  | Key_Down => mkViewState (zoom s) (int_add (offset_x s) 0) (int_add (offset_y s) (-20))
  | Key_Left => mkViewState (zoom s) (int_add (offset_x s) 20) (int_add (offset_y s) 0)
  | Key_Right => mkViewState (zoom s) (int_add (offset_x s) (-20)) (int_add (offset_y s) 0)
  | Key_other => s
  end.





(** ** Painting and repainting *)

(** What the widget reads of the console: the images by name (each of
    them set: the view follows the pointers without a check), the drawings
    of each view, and the time stamps of the image drawings and of the
    motion drawings. *)
Record RobotConsole : Type := mkRobotConsole {
  camImages : gmap string Image;
  imageViews : gmap string (list string);
  camImageDrawings : gmap string Z;
  motionImageDrawings : gmap string Z
}.

(** The members [lastImageTimeStamp] and [lastDrawingsTimeStamp]. *)
Record PaintState : Type := mkPaintState {
  lastImageTimeStamp : Z;
  lastDrawingsTimeStamp : Z
}.

(** [imageView.console.imageViews[imageView.name]]: a view without an
    entry gets the empty list. *)
Definition drawingsOfView (console : RobotConsole) (name : string)
  : list string :=
  default [] (imageViews console !! name).

(** One round of the loop of [paintDrawings], on [lastDrawingsTimeStamp]:
    first the image drawing of that name, then the motion drawing. *)
Definition paintDrawings_step (console : RobotConsole) (last : Z)
    (drawing : string) : Z :=
  let last :=
    match camImageDrawings console !! drawing with
    | Some timeStamp => if (timeStamp >? last)%Z then timeStamp else last
    | None => last
    end in
  match motionImageDrawings console !! drawing with
  | Some timeStamp => if (timeStamp >? last)%Z then timeStamp else last
  | None => last
  end.

(** [void ImageWidget::paintDrawings(QPainter& painter)] on
    [lastDrawingsTimeStamp]. *)
Definition paintDrawings (console : RobotConsole) (name : string) (last : Z)
  : Z :=
  fold_left (paintDrawings_step console) (drawingsOfView console name) last.

(** [void ImageWidget::paintImage(QPainter&, const Image& srcImage)] on
    [lastImageTimeStamp]. *)
Definition paintImage (srcImage : Image) (last : Z) : Z :=
  if negb (img_timeStamp srcImage =? last)%Z then img_timeStamp srcImage
  else last.

(** [void ImageWidget::paint(QPainter& painter)] on the two time stamps,
    for the view [name] over the image [background]. *)
Definition paint (console : RobotConsole) (background name : string)
    (s : PaintState) : PaintState :=
  let lastImage :=
    match camImages console !! background with
    | Some image => paintImage image (lastImageTimeStamp s)
    | None => 0%Z
    end in
  mkPaintState lastImage
    (paintDrawings console name (lastDrawingsTimeStamp s)).

Section NeedsRepaint.

(** The time stamp of the drawing that [camImageDrawings[*i]] creates when
    there is none of that name; [DebugDrawing] is not among the sources. *)
Variable freshTimeStamp : Z.

(** [bool ImageWidget::needsRepaint() const] *)
Definition needsRepaint (console : RobotConsole) (background name : string)
    (s : PaintState) : bool :=
  match camImages console !! background with
  | Some image => negb (img_timeStamp image =? lastImageTimeStamp s)%Z
  | None =>
      if existsb
           (fun drawing =>
              (default freshTimeStamp (camImageDrawings console !! drawing)
               >? lastDrawingsTimeStamp s)%Z)
           (drawingsOfView console name)
      then true
      else negb (lastImageTimeStamp s =? 0)%Z
  end.

End NeedsRepaint.

(** ** Clicking and dragging *)

Inductive MouseButton : Type := LeftButton | MiddleButton | OtherButton.

(** What the handlers read of a [QMouseEvent]: the position, the button,
    and whether shift and control are held. *)
Record QMouseEvent : Type := mkQMouseEvent {
  ev_pos : Z * Z;
  ev_button : MouseButton;
  ev_shift : bool;
  ev_control : bool
}.

(** The members [dragStart], [dragStartOffset] and [headControlMode]. *)
Record MouseState : Type := mkMouseState {
  dragStart : Z * Z;
  dragStartOffset : Z * Z;
  headControlMode : bool
}.

(** What a handler asks of its collaborators:
    [imageView.console.handleConsole(command)] and
    [ImageViewAdapter::fireClick(name, v, upperCam, flag)]. *)
Inductive ConsoleAction : Type :=
  | handleConsole (command : string)
  | fireClick (name : string) (v : Z * Z) (upperCam flag : bool).

(** [QPoint(-1, -1)], the value of [dragStart] when nothing is dragged. *)
Definition noDrag : Z * Z := ((-1)%Z, (-1)%Z).

(** [void ImageWidget::mousePressEvent(QMouseEvent* event)], with the
    member [offset]. *)
Definition mousePressEvent (offset : Z * Z) (event : QMouseEvent)
    (s : MouseState) : MouseState :=
  match ev_button event with
  | LeftButton | MiddleButton =>
      mkMouseState (ev_pos event) offset (headControlMode s)
  | OtherButton => s
  end.

(** The command that a click with shift sends. *)
Definition headMotionCommand (v : Z * Z) (upperCam : bool) : string :=
  "set parameters:ManualHeadMotionProvider xImg = " +:+ pretty (fst v)
  +:+ "; yImg = " +:+ pretty (snd v)
  +:+ "; camera = " +:+ (if upperCam then "upper" else "lower") +:+ ";".

Section MouseRelease.

(** [window2viewport], which computes in [float], and the members [name]
    and [upperCam] of the view. *)
Variable window2viewport : Z * Z -> Z * Z.
Variable name : string.
Variable upperCam : bool.

(** [void ImageWidget::mouseReleaseEvent(QMouseEvent* event)]: the state
    it leaves and what it asks of the console, in order. *)
Definition mouseReleaseEvent (event : QMouseEvent) (s : MouseState)
  : MouseState * list ConsoleAction :=
  let pos := ev_pos event in
  if negb (bool_decide (dragStart s = pos))
     && negb (bool_decide (dragStart s = noDrag))
  then (mkMouseState noDrag (dragStartOffset s) (headControlMode s), [])
  else
    let v := window2viewport pos in
    let head :=
      if ev_shift event
      then (if headControlMode s then []
            else [handleConsole "mr HeadMotionRequest ManualHeadMotionProvider"])
           ++ [handleConsole (headMotionCommand v upperCam)]
      else [] in
    let click :=
      if negb (ev_shift event)
      then (if ev_control event
            then [fireClick name v upperCam false]
            else [fireClick name v upperCam true])
      else [] in
    (mkMouseState noDrag (dragStartOffset s)
       (if ev_shift event then true else headControlMode s),
     head ++ click).

(** A press or a release, and the handlers run over a sequence of them:
    the state at the end and everything asked of the console. *)
Inductive MouseInput : Type :=
  | Press (offset : Z * Z) (event : QMouseEvent)
  | Release (event : QMouseEvent).

Fixpoint runMouse (inputs : list MouseInput) (s : MouseState)
  : MouseState * list ConsoleAction :=
  match inputs with
  | [] => (s, [])
  | Press offset event :: rest => runMouse rest (mousePressEvent offset event s)
  | Release event :: rest =>
      let '(s1, acts) := mouseReleaseEvent event s in
      let '(s2, acts') := runMouse rest s1 in
      (s2, acts ++ acts')
  end.

End MouseRelease.

(** The request that switches the head to manual control. *)
Definition isModeRequest (a : ConsoleAction) : bool :=
  match a with
  | handleConsole command =>
      bool_decide (command = "mr HeadMotionRequest ManualHeadMotionProvider")
  | fireClick _ _ _ _ => false
  end.

(** ** [drawDigit] and [TeamInfo::draw] *)

(** [Vector3f] in exact arithmetic. *)
Definition Vector3f : Type := Vector3 (F := R_scalar).

Definition Vector3f_sub (a b : Vector3f) : Vector3f :=
  mkVector3 (v3x a - v3x b)%R (v3y a - v3y b)%R (v3z a - v3z b)%R.

Definition Vector3f_scale (a : Vector3f) (k : R) : Vector3f :=
  mkVector3 (v3x a * k)%R (v3y a * k)%R (v3z a * k)%R.

Module ColorRGBA.
Inductive t : Type :=
  | cyan | red | yellow | black | white | darkgreen | orange | purple
  | brown | gray.
End ColorRGBA.

(** What a [LINE3D] of the drawing [representation:TeamInfo] is given. *)
Record Line3D : Type := mkLine3D {
  line_from : Vector3f;
  line_to : Vector3f;
  line_size : Z;
  line_color : ColorRGBA.t
}.

(** The tables of [drawDigit]: [points], [digits] and [colors]. *)
Definition drawDigit_points : list Vector3f :=
  [ mkVector3 1%R 0%R 1%R; mkVector3 1%R 0%R 0%R; mkVector3 0%R 0%R 0%R;
    mkVector3 0%R 0%R 1%R; mkVector3 0%R 0%R 2%R; mkVector3 1%R 0%R 2%R;
    mkVector3 1%R 0%R 1%R; mkVector3 0%R 0%R 1%R ].

Definition drawDigit_digits : list Z :=
  [0x3f; 0x0c; 0x76; 0x5e; 0x4d; 0x5b; 0x7b; 0x0e; 0x7f; 0x5f]%Z.

Definition drawDigit_colors : list ColorRGBA.t :=
  [ ColorRGBA.cyan; ColorRGBA.red; ColorRGBA.yellow; ColorRGBA.black;
    ColorRGBA.white; ColorRGBA.darkgreen; ColorRGBA.orange; ColorRGBA.purple;
    ColorRGBA.brown; ColorRGBA.gray ].

(** One round of the loop of [drawDigit]: the line of segment [i], if
    [digit & (1 << i)]. *)
Definition drawDigit_segment (digit : Z) (pos : Vector3f) (size : R)
    (teamColor : Z) (i : nat) : option (list Line3D) :=
  if (Z.land digit (Z.shiftl 1 (Z.of_nat i)) =? 0)%Z then Some []
  else
    match drawDigit_points !! i, drawDigit_points !! (i + 1),
          array_at drawDigit_colors teamColor with
    | Some p0, Some p1, Some c =>
        Some [ mkLine3D (Vector3f_sub pos (Vector3f_scale p0 size))
                        (Vector3f_sub pos (Vector3f_scale p1 size)) 2 c ]
    | _, _, _ => None
    end.

(** The rounds [i = 0 .. 6] one after the other. *)
Fixpoint drawDigit_loop (rounds : list nat) (digit : Z) (pos : Vector3f)
    (size : R) (teamColor : Z) : option (list Line3D) :=
  match rounds with
  | [] => Some []
  | i :: rest =>
      match drawDigit_segment digit pos size teamColor i,
            drawDigit_loop rest digit pos size teamColor with
      | Some l, Some ls => Some (l ++ ls)
      | _, _ => None
      end
  end.

(** [static void drawDigit(int digit, const Vector3f& pos, float size, int teamColor)]
    with the drawing requested: the lines it draws, or nothing defined
    when a table is read outside its bounds. *)
Definition drawDigit (digit : Z) (pos : Vector3f) (size : R) (teamColor : Z)
  : option (list Line3D) :=
  match array_at drawDigit_digits (Z.abs digit) with
  | Some pattern => drawDigit_loop (seq 0 7) pattern pos size teamColor
  | None => None
  end.

(** [void TeamInfo::draw() const], from the members [teamNumber], [score]
    and [teamColour]. *)
Definition TeamInfo_draw (teamNumber score teamColour : Z)
  : option (list Line3D) :=
  let x := if (teamNumber =? 1)%Z then (-1535)%R else 1465%R in
  match drawDigit (Z.quot score 10) (mkVector3 x 3500%R 1000%R) 200%R teamColour,
        drawDigit (Z.rem score 10) (mkVector3 (x + 270)%R 3500%R 1000%R) 200%R
          teamColour with
  | Some tens, Some ones => Some (tens ++ ones)
  | _, _ => None
  end.

(** What holds of every line that [drawDigit] draws at [pos] with [size]
    and team colour [c]: it lies in the plane of [pos] across the y axis,
    its ends are [size] apart, its width is 2 and its colour is that of
    the team. *)
Definition segmentLine (pos : Vector3f) (size : R) (c : Z) (l : Line3D)
  : Prop :=
  (v3y (line_from l) = v3y pos /\
   v3y (line_to l) = v3y pos /\
   (v3x (line_from l) - v3x (line_to l)) * (v3x (line_from l) - v3x (line_to l))
   + (v3z (line_from l) - v3z (line_to l)) * (v3z (line_from l) - v3z (line_to l))
   = size * size)%R /\
  line_size l = 2%Z /\
  array_at drawDigit_colors c = Some (line_color l).

(** * Properties *)

(** ** Integers written by [memset] *)

(** Bytes that were all set to [b] read as [n] equal [int]s. *)
Lemma ints_of_bytes_filled (n : nat) (b : Z) (rest : list (option Z)) :
  ints_of_bytes n (replicate (n * sizeof_int) (Some b) ++ rest)
  = Some (replicate n (to_int (b + 256 * (b + 256 * (b + 256 * b))))).
Proof.
  unfold sizeof_int. induction n as [|n IH]; [reflexivity|].
  change (S n * 4) with (S (S (S (S (n * 4))))).
  cbn [replicate app ints_of_bytes int_of_bytes skipn sizeof_int].
  rewrite drop_0, IH. reflexivity.
Qed.

(** [memset] over the whole array gives every slot the value of four
    equal bytes. *)
Lemma lineCorrespondences_memset_whole (c : Z) :
  lineCorrespondences_memset c sizeof_lineCorrespondences
  = Some (replicate maxNumberOfLineObservations
            (let b := (c mod 256)%Z in
             to_int (b + 256 * (b + 256 * (b + 256 * b))))).
Proof.
  unfold lineCorrespondences_memset, memset, uninitialised.
  rewrite length_replicate, Nat.leb_refl.
  apply ints_of_bytes_filled.
Qed.

(** [memset] over less than the whole array leaves a slot without a
    value. *)
Lemma lineCorrespondences_memset_short (c : Z) (size : nat) :
  size < sizeof_lineCorrespondences ->
  lineCorrespondences_memset c size = None.
Proof.
  intros H. unfold sizeof_lineCorrespondences in H. simpl in H.
  do 32 (destruct size as [|size]; [reflexivity|]).
  lia.
Qed.

(** A vector's [size() > 0] says that it is not empty. *)
Lemma size_positive {A : Type} (l : list A) :
  (0 <? length l) = true <-> l <> [].
Proof.
  destruct l as [|a l]; simpl.
  - split; [discriminate | congruence].
  - split; [discriminate | reflexivity].
Qed.

Section Aggregate.

Context {F : Scalar}.

(** ** The copy loop of [setLineCorrespondences] *)

Lemma copyLineCorrespondences_length (n i : nat) (other lc lc' : list Z) :
  copyLineCorrespondences n i other lc = Some lc' ->
  length lc' = length lc.
Proof.
  revert i lc. induction n as [|n IH]; intros i lc; simpl.
  - intros [= <-]. reflexivity.
  - destruct (other !! i) as [v|]; [|discriminate].
    intros H. apply IH in H. now rewrite length_insert in H.
Qed.

Lemma setLineCorrespondences_length (h h' : PoseHypothesis) (other : list Z) :
  setLineCorrespondences h other = Some h' ->
  length (ph_lineCorrespondences h') = length (ph_lineCorrespondences h).
Proof.
  unfold setLineCorrespondences.
  destruct (copyLineCorrespondences _ _ _ _) as [lc|] eqn:E; [|discriminate].
  intros [= <-]. simpl. eapply copyLineCorrespondences_length, E.
Qed.

Lemma constructedHypothesis_length (h : PoseHypothesis) :
  constructedHypothesis h ->
  length (ph_lineCorrespondences h) = maxNumberOfLineObservations.
Proof.
  induction 1 as [h E|h other h' _ IH E|h p _ IH|h i v _ IH _]; simpl.
  - unfold PoseHypothesis_default in E.
    rewrite lineCorrespondences_memset_whole in E. injection E as <-.
    reflexivity.
  - rewrite (setLineCorrespondences_length _ _ _ E). exact IH.
  - exact IH.
  - rewrite length_insert. exact IH.
Qed.

(** C1 (as amended): for every prior state, [reset()] clears the
    observations, the cached spherical projections, the unique hypotheses
    and the intervals, sets [onlyObservedOneFieldLine] to false and keeps
    the field line map; after it [containsMatches()] is false. *)
Theorem reset_clears_frame (r : LineMatchingResult) :
  observations (reset r) = [] /\
  observationsSphericalCoords (reset r) = [] /\
  poseHypothesis (reset r) = [] /\
  poseHypothesisIntervals (reset r) = [] /\
  onlyObservedOneFieldLine (reset r) = false /\
  fieldLines (reset r) = fieldLines r /\
  containsMatches (reset r) = false.
Proof. repeat split. Qed.

(** C10: [reset()] leaves [fieldLines] as it was; the state after it is
    the prior state with the four per-frame sequences emptied and the flag
    cleared, so no other member changes. *)
Theorem reset_keeps_fieldLines (r : LineMatchingResult) :
  fieldLines (reset r) = fieldLines r /\
  reset r =
    mkLineMatchingResult [] (fieldLines r) [] [] [] false /\
  snd (call_mutator reset r) = reset r.
Proof. repeat split. Qed.

(** C5: [containsMatches()] is true exactly when a unique hypothesis or an
    interval is present, [containsUniqueMatches()] exactly when
    [poseHypothesis] is not empty, [containsNonUniqueMatches()] exactly when
    [poseHypothesisIntervals] is not empty; each of them, being [const],
    leaves the aggregate as it found it. *)
Theorem queries_read_sizes (r : LineMatchingResult) :
  (containsMatches r = true <->
     poseHypothesis r <> [] \/ poseHypothesisIntervals r <> []) /\
  (containsUniqueMatches r = true <-> poseHypothesis r <> []) /\
  (containsNonUniqueMatches r = true <-> poseHypothesisIntervals r <> []) /\
  snd (call_const containsMatches r) = r /\
  snd (call_const containsUniqueMatches r) = r /\
  snd (call_const containsNonUniqueMatches r) = r.
Proof.
  unfold containsMatches, containsUniqueMatches, containsNonUniqueMatches.
  rewrite orb_true_iff, !size_positive. repeat split; auto.
Qed.

(** C9: a default-constructed [PoseHypothesis] and a default-constructed
    [PoseHypothesisInterval] hold 0 in each of their 8 slots, every byte of
    which the constructor's [memset] has written, and 0 is the index of
    the first line of the field line map. *)
Theorem default_lineCorrespondences_zero (r : LineMatchingResult) :
  PoseHypothesis_default
    = Some (mkPoseHypothesis Pose2f_default [0; 0; 0; 0; 0; 0; 0; 0]%Z) /\
  PoseHypothesisInterval_default
    = Some (mkPoseHypothesisInterval Pose2f_default Pose2f_default
              [0; 0; 0; 0; 0; 0; 0; 0]%Z) /\
  maxNumberOfLineObservations = 8 /\
  fieldLines r !! Z.to_nat 0 = head (fieldLines r).
Proof.
  unfold PoseHypothesis_default, PoseHypothesisInterval_default.
  rewrite lineCorrespondences_memset_whole.
  repeat split. simpl. now destruct (fieldLines r).
Qed.

End Aggregate.

(** C1 (as stated) fails: [reset()] does not clear the field line map. *)
Lemma reset_keeps_map_of_matchedFrame :
  ~ (forall r : LineMatchingResult (F := R_scalar),
       fieldLines (reset r) = [] /\
       observations (reset r) = [] /\
       observationsSphericalCoords (reset r) = [] /\
       poseHypothesis (reset r) = [] /\
       poseHypothesisIntervals (reset r) = [] /\
       onlyObservedOneFieldLine (reset r) = false).
Proof.
  intros H. destruct (H matchedFrame) as [Hmap _].
  simpl in Hmap. discriminate Hmap.
Qed.

(** ** The polar decomposition behind [atan2] *)

Section RealGeometry.

Local Open Scope R_scope.

Lemma one_plus_sqr_pos (z : R) : 0 < 1 + z².
Proof. unfold Rsqr. nra. Qed.

Lemma sqrt_one_plus_sqr_neq_0 (z : R) : sqrt (1 + z²) <> 0.
Proof.
  pose proof (sqrt_lt_R0 _ (one_plus_sqr_pos z)). lra.
Qed.

(** The norm of (x, y) with x off the axis, in terms of the slope. *)
Lemma norm_by_slope (x y : R) :
  x <> 0 -> sqrt (x * x + y * y) = Rabs x * sqrt (1 + (y / x)²).
Proof.
  intros Hx.
  rewrite <- (sqrt_Rsqr_abs x), <- sqrt_mult.
  - f_equal. unfold Rsqr. field. exact Hx.
  - apply Rle_0_sqr.
  - left. apply one_plus_sqr_pos.
Qed.

Lemma Ratan2_polar (x y : R) :
  x = sqrt (x * x + y * y) * cos (Ratan2 y x) /\
  y = sqrt (x * x + y * y) * sin (Ratan2 y x).
Proof.
  unfold Ratan2.
  destruct (Rlt_dec 0 x) as [Hpos|Hnpos].
  - rewrite norm_by_slope, cos_atan, sin_atan, Rabs_pos_eq by lra.
    pose proof (sqrt_one_plus_sqr_neq_0 (y / x)).
    split; field; repeat split; solve [assumption | lra].
  - destruct (Rlt_dec x 0) as [Hneg|Hnneg].
    + pose proof (sqrt_one_plus_sqr_neq_0 (y / x)).
      destruct (Rle_dec 0 y) as [Hy|Hy].
      * rewrite norm_by_slope, neg_cos, neg_sin, cos_atan, sin_atan,
          Rabs_left by lra.
        split; field; repeat split; solve [assumption | lra].
      * replace (atan (y / x) - PI) with (- (PI - atan (y / x))) by ring.
        rewrite cos_neg, sin_neg.
        replace (cos (PI - atan (y / x))) with (- cos (atan (y / x))).
        2:{ unfold Rminus. rewrite cos_plus, cos_neg, sin_neg, cos_PI, sin_PI. ring. }
        replace (sin (PI - atan (y / x))) with (sin (atan (y / x))).
        2:{ unfold Rminus. rewrite sin_plus, cos_neg, sin_neg, cos_PI, sin_PI. ring. }
        rewrite norm_by_slope, cos_atan, sin_atan, Rabs_left by lra.
        split; field; repeat split; solve [assumption | lra].
    + assert (x = 0) as -> by lra.
      replace (0 * 0 + y * y) with (y²) by (unfold Rsqr; ring).
      rewrite sqrt_Rsqr_abs.
      destruct (Rlt_dec 0 y) as [Hy|Hy].
      * rewrite cos_PI2, sin_PI2, Rabs_pos_eq by lra. lra.
      * destruct (Rlt_dec y 0) as [Hy'|Hy'].
        -- rewrite cos_neg, sin_neg, cos_PI2, sin_PI2, Rabs_left by lra. lra.
        -- assert (y = 0) as -> by lra. rewrite Rabs_R0. lra.
Qed.

Lemma Ratan2_range (x y : R) : - PI < Ratan2 y x <= PI.
Proof.
  unfold Ratan2. pose proof PI_RGT_0 as HPI.
  pose proof (atan_bound (y / x)) as Hb.
  destruct (Rlt_dec 0 x) as [Hpos|Hnpos]; [lra|].
  destruct (Rlt_dec x 0) as [Hneg|Hnneg].
  - destruct (Rle_dec 0 y) as [Hy|Hy].
    + assert (y / x <= 0) as Hq.
      { unfold Rdiv. assert (/ x < 0) by (apply Rinv_lt_0_compat; lra). nra. }
      assert (atan (y / x) <= 0) as Ha.
      { rewrite <- atan_0.
        destruct Hq as [Hq|Hq]; [left; apply atan_increasing; exact Hq|].
        rewrite Hq. lra. }
      lra.
    + assert (0 < y / x) as Hq.
      { unfold Rdiv. assert (/ x < 0) by (apply Rinv_lt_0_compat; lra). nra. }
      assert (0 < atan (y / x)) as Ha.
      { rewrite <- atan_0. apply atan_increasing. exact Hq. }
      lra.
  - destruct (Rlt_dec 0 y); [lra|]. destruct (Rlt_dec y 0); lra.
Qed.

End RealGeometry.

(** ** The spherical projection and the change of frame, in exact arithmetic *)

Section RealProjection.

Local Open Scope R_scope.

Lemma rotate_back (a x y : R) :
  cos a * (cos a * x - - sin a * y) - sin a * (- sin a * x + cos a * y) = x /\
  sin a * (cos a * x - - sin a * y) + cos a * (- sin a * x + cos a * y) = y.
Proof.
  pose proof (sin2_cos2 a) as H. unfold Rsqr in H.
  split.
  - transitivity ((sin a * sin a + cos a * cos a) * x); [ring|].
    rewrite H. ring.
  - transitivity ((sin a * sin a + cos a * cos a) * y); [ring|].
    rewrite H. ring.
Qed.

Lemma rotate_forth (a x y : R) :
  cos a * (cos a * x - sin a * y) - - sin a * (sin a * x + cos a * y) = x /\
  - sin a * (cos a * x - sin a * y) + cos a * (sin a * x + cos a * y) = y.
Proof.
  pose proof (sin2_cos2 a) as H. unfold Rsqr in H.
  split.
  - transitivity ((sin a * sin a + cos a * cos a) * x); [ring|].
    rewrite H. ring.
  - transitivity ((sin a * sin a + cos a * cos a) * y); [ring|].
    rewrite H. ring.
Qed.

Lemma sub_add_back (x t : R) : x - t + t = x.
Proof. ring. Qed.

Lemma pointFromPose_pointRelativeToPose
    (pose : Pose2f (F := R_scalar)) (p : Vector2) :
  pointFromPose pose (pointRelativeToPose pose p) = p.
Proof.
  destruct pose as [a [tx ty]], p as [x y].
  unfold pointFromPose, pointRelativeToPose, Vector2_add, Vector2_rotate,
    Vector2_sub. simpl.
  rewrite cos_neg, sin_neg.
  destruct (rotate_back a (x - tx) (y - ty)) as [-> ->].
  f_equal; apply sub_add_back.
Qed.

Lemma pointRelativeToPose_pointFromPose
    (pose : Pose2f (F := R_scalar)) (q : Vector2) :
  pointRelativeToPose pose (pointFromPose pose q) = q.
Proof.
  destruct pose as [a [tx ty]], q as [x y].
  unfold pointFromPose, pointRelativeToPose, Vector2_add, Vector2_rotate,
    Vector2_sub. simpl.
  rewrite cos_neg, sin_neg.
  replace (cos a * x - sin a * y + tx - tx) with (cos a * x - sin a * y) by ring.
  replace (sin a * x + cos a * y + ty - ty) with (sin a * x + cos a * y) by ring.
  destruct (rotate_forth a x y) as [-> ->].
  reflexivity.
Qed.

Lemma ahead_of_pose (a d tx ty : R) :
  cos a * (tx + d * cos a - tx) - - sin a * (ty + d * sin a - ty) = d /\
  - sin a * (tx + d * cos a - tx) + cos a * (ty + d * sin a - ty) = 0.
Proof.
  pose proof (sin2_cos2 a) as H. unfold Rsqr in H. split; [|ring].
  transitivity (d * (sin a * sin a + cos a * cos a)); [ring|].
  rewrite H. ring.
Qed.

Lemma left_of_pose (a d tx ty : R) :
  cos a * (tx - d * sin a - tx) - - sin a * (ty + d * cos a - ty) = 0 /\
  - sin a * (tx - d * sin a - tx) + cos a * (ty + d * cos a - ty) = d.
Proof.
  pose proof (sin2_cos2 a) as H. unfold Rsqr in H. split; [ring|].
  transitivity (d * (sin a * sin a + cos a * cos a)); [ring|].
  rewrite H. ring.
Qed.

End RealProjection.

(** C3: the line projection applies the point projection to the start and
    to the end, each with the line's camera height, and copies the camera
    height.  Under a pose every endpoint first has the pose position
    subtracted and is then rotated by the negated pose heading, before the
    same projection: in exact arithmetic a point at distance d straight
    ahead of the pose is projected as (d, 0), and one at distance d to its
    left as (0, d). *)
Theorem line_projection_by_endpoints :
  (forall (F : Scalar) (pose : Pose2f) (l : FieldLine),
     let h := fl_cameraHeight l in
     let project (q : Vector2) :=
       mkVector2
         (natan2 h (nsqrt (nadd (nmul (vx q) (vx q)) (nmul (vy q) (vy q)))))
         (natan2 (vy q) (vx q)) in
     let relative (p : Vector2) :=
       let dx := nsub (vx p) (vx (translation pose)) in
       let dy := nsub (vy p) (vy (translation pose)) in
       let c := ncos (nneg (rotation pose)) in
       let s := nsin (nneg (rotation pose)) in
       mkVector2 (nsub (nmul c dx) (nmul s dy)) (nadd (nmul s dx) (nmul c dy)) in
     getSphericalCoordinatesForPointObservation_line l
       = mkFieldLine (project (fl_start l)) (project (fl_end l)) h /\
     getSphericalCoordinatesForPointObservation_pose_line pose l
       = mkFieldLine (project (relative (fl_start l)))
           (project (relative (fl_end l))) h) /\
  (forall (a d h : R) (t : Vector2 (F := R_scalar)),
     getSphericalCoordinatesForPointObservation_pose (mkPose2f a t)
       (mkVector2 (vx t + d * cos a)%R (vy t + d * sin a)%R) h
     = getSphericalCoordinatesForPointObservation
         (@mkVector2 R_scalar d 0%R) h /\
     getSphericalCoordinatesForPointObservation_pose (mkPose2f a t)
       (mkVector2 (vx t - d * sin a)%R (vy t + d * cos a)%R) h
     = getSphericalCoordinatesForPointObservation
         (@mkVector2 R_scalar 0%R d) h).
Proof.
  split; [intros F pose l; split; reflexivity|].
  intros a d h [tx ty].
  unfold getSphericalCoordinatesForPointObservation_pose,
    Vector2_rotate, Vector2_sub.
  cbn [rotation translation vx vy nneg ncos nsin nsub nadd nmul R_scalar].
  rewrite cos_neg, sin_neg.
  destruct (ahead_of_pose a d tx ty) as [-> ->].
  destruct (left_of_pose a d tx ty) as [-> ->].
  split; reflexivity.
Qed.

(** C2: the point projection returns [atan2] of the camera height and the
    Euclidean norm of the point as vertical angle, and the bearing of the
    point as horizontal angle, for whatever implements the arithmetic; in
    exact arithmetic the bearing is the polar angle of the point, in
    (-PI, PI], and the vertical angle is the polar angle of the pair of
    planar distance and camera height. *)
Theorem spherical_projection_of_point :
  (forall (F : Scalar) (p : Vector2) (h : num),
     getSphericalCoordinatesForPointObservation p h =
       mkVector2
         (natan2 h (nsqrt (nadd (nmul (vx p) (vx p)) (nmul (vy p) (vy p)))))
         (natan2 (vy p) (vx p))) /\
  (forall (p : Vector2 (F := R_scalar)) (h : R),
     let s := getSphericalCoordinatesForPointObservation p h in
     let d := Vector2_norm p in
     (d = sqrt (vx p * vx p + vy p * vy p) /\
      vx p = d * cos (vy s) /\
      vy p = d * sin (vy s) /\
      - PI < vy s <= PI /\
      d = sqrt (d * d + h * h) * cos (vx s) /\
      h = sqrt (d * d + h * h) * sin (vx s))%R).
Proof.
  split; [reflexivity|].
  intros [x y] h. simpl.
  pose proof (Ratan2_polar x y) as [Hx Hy].
  pose proof (Ratan2_polar (Vector2_norm (mkVector2 x y)) h) as [Hd Hh].
  repeat split; try assumption; apply Ratan2_range.
Qed.

(** C6: in exact arithmetic, expressing a point relative to a pose
    (subtract the pose position, rotate by the negated heading) and then
    applying the inverse transformation (rotate by the heading, add the
    pose position) gives the point back, and so for both endpoints of a
    line; the two transformations are inverse to each other. *)
Theorem pose_projection_round_trip
    (pose : Pose2f (F := R_scalar)) (p : Vector2) (l : FieldLine) :
  pointFromPose pose (pointRelativeToPose pose p) = p /\
  lineFromPose pose (lineRelativeToPose pose l) = l /\
  pointRelativeToPose pose (pointFromPose pose p) = p.
Proof.
  split; [apply pointFromPose_pointRelativeToPose|].
  split; [|apply pointRelativeToPose_pointFromPose].
  destruct l as [s e h]. unfold lineFromPose, lineRelativeToPose. simpl.
  now rewrite !pointFromPose_pointRelativeToPose.
Qed.

(** ** The order of the real numbers *)

#[export] Instance R_scalar_order : ScalarOrder R_scalar.
Proof.
  split; simpl; unfold Rltb, Rleb; intros a b c;
    repeat match goal with
           | |- context [Rlt_dec ?x ?y] => destruct (Rlt_dec x y)
           | |- context [Rle_dec ?x ?y] => destruct (Rle_dec x y)
           end; intros; try reflexivity; try discriminate; lra.
Qed.

(** ** The correspondence search under two thresholds *)

Section Search.

Context {F : Scalar}.

Lemma filter_swap {A : Type} (f g : A -> bool) (l : list A) :
  List.filter f (List.filter g l) = List.filter g (List.filter f l).
Proof.
  induction l as [|a l IH]; simpl; [reflexivity|].
  destruct (g a) eqn:Eg, (f a) eqn:Ef; simpl;
    rewrite ?Eg, ?Ef, IH; reflexivity.
Qed.

Lemma filter_length_le {A : Type} (f : A -> bool) (l : list A) :
  length (List.filter f l) <= length l.
Proof.
  induction l as [|a l IH]; simpl; [lia|].
  destruct (f a); simpl; lia.
Qed.

Lemma filter_length_lt {A : Type} (f : A -> bool) (l : list A) (a : A) :
  In a l -> f a = false -> length (List.filter f l) < length l.
Proof.
  induction l as [|b l IH]; simpl; [tauto|].
  intros [->|Hin] Hf.
  - rewrite Hf. pose proof (filter_length_le f l). lia.
  - specialize (IH Hin Hf). destruct (f b); simpl; lia.
Qed.

(** The best candidate is the one carried in or one of the list. *)
Lemma fold_better_In (cs : list Candidate) (o : option Candidate) (b : Candidate) :
  fold_left better cs o = Some b -> o = Some b \/ In b cs.
Proof.
  revert o. induction cs as [|c cs IH]; simpl; intros o H; [now left|].
  apply IH in H. destruct H as [H|H]; [|now right; right].
  destruct o as [b'|]; simpl in H.
  - destruct (nltb (c_lik b') (c_lik c)); injection H as <-; auto.
  - injection H as <-. auto.
Qed.

Lemma best_In (cs : list Candidate) (b : Candidate) :
  best cs = Some b -> In b cs.
Proof.
  intros H. apply fold_better_In in H. destruct H as [H|H]; [discriminate|exact H].
Qed.

Lemma conflicts_refl (b : Candidate) : conflicts b b = true.
Proof. unfold conflicts. now rewrite Nat.eqb_refl. Qed.

(** Every round of the conflict resolution removes the chosen candidate. *)
Lemma without_conflicts_shrinks (cs : list Candidate) (b : Candidate) :
  In b cs ->
  length (List.filter (fun c => negb (conflicts b c)) cs) < length cs.
Proof.
  intros H. apply (filter_length_lt _ cs b H).
  now rewrite conflicts_refl.
Qed.

Lemma resolve_round_shrinks (cs : list Candidate) (b : Candidate) :
  best cs = Some b ->
  length (List.filter (fun c => negb (conflicts b c)) cs) < length cs.
Proof. intros H. apply without_conflicts_shrinks, best_In, H. Qed.

(** The conflict resolution ends within as many rounds as there are
    candidates: any further fuel leaves its result as it is. *)
Lemma resolve_fuel (f1 f2 : nat) (cs : list Candidate) :
  length cs <= f1 -> length cs <= f2 -> resolve f1 cs = resolve f2 cs.
Proof.
  revert f2 cs. induction f1 as [|f1 IH]; intros f2 cs H1 H2.
  - destruct cs; [|simpl in H1; lia]. destruct f2; reflexivity.
  - destruct f2 as [|f2].
    + destruct cs; [|simpl in H2; lia]. reflexivity.
    + simpl. destruct (best cs) as [b|] eqn:E; [|reflexivity].
      pose proof (resolve_round_shrinks cs b E).
      f_equal. apply IH; lia.
Qed.

Context {O : ScalarOrder F}.

Variables t1 t2 : num.
Hypothesis t1_le_t2 : nleb t1 t2 = true.

Lemma exceeds_lower (c : Candidate) :
  exceeds t2 c = true -> exceeds t1 c = true.
Proof. unfold exceeds. apply nleb_nltb_trans, t1_le_t2. Qed.

Lemma fold_better_ahead (cs : list Candidate) (o1 o2 : option Candidate) :
  ahead t2 o1 o2 ->
  ahead t2 (fold_left better (List.filter (exceeds t1) cs) o1)
           (fold_left better (List.filter (exceeds t2) cs) o2).
Proof.
  revert o1 o2. induction cs as [|c cs IH]; intros o1 o2 H; simpl; [exact H|].
  destruct (exceeds t2 c) eqn:E2.
  - rewrite (exceeds_lower c E2). simpl. apply IH.
    destruct o2 as [b2|]; simpl in *.
    + destruct H as [-> Hb]. simpl.
      destruct (nltb (c_lik b2) (c_lik c)); simpl; auto.
    + destruct o1 as [b1|]; simpl; [|auto].
      unfold exceeds in *.
      destruct (nltb (c_lik b1) (c_lik c)) eqn:E; simpl; [auto|].
      rewrite (nltb_negtrans _ _ _ H E) in E2. discriminate.
  - destruct (exceeds t1 c) eqn:E1; simpl; [|apply IH, H].
    apply IH. destruct o2 as [b2|]; simpl in *.
    + destruct H as [-> Hb]. simpl. unfold exceeds in *.
      destruct (nltb (c_lik b2) (c_lik c)) eqn:E; simpl; [|auto].
      rewrite (nltb_trans _ _ _ Hb E) in E2. discriminate.
    + destruct o1 as [b1|]; simpl; [|exact E2].
      destruct (nltb (c_lik b1) (c_lik c)); simpl; assumption.
Qed.

(** A best candidate above the higher threshold is also the best one above
    the lower threshold. *)
Lemma best_lower (cs : list Candidate) (b : Candidate) :
  best (List.filter (exceeds t2) cs) = Some b ->
  best (List.filter (exceeds t1) cs) = Some b.
Proof.
  unfold best. intros H.
  pose proof (fold_better_ahead cs None None I) as Ha.
  rewrite H in Ha. simpl in Ha. tauto.
Qed.

(** What is matched above the higher threshold is matched first, and in
    the same order, above the lower one. *)
Lemma resolve_prefix (n : nat) (cs : list Candidate) :
  length cs <= n ->
  resolve n (List.filter (exceeds t2) cs)
    `prefix_of` resolve n (List.filter (exceeds t1) cs).
Proof.
  revert cs. induction n as [|n IH]; intros cs Hn; simpl; [reflexivity|].
  destruct (best (List.filter (exceeds t2) cs)) as [b|] eqn:E.
  - rewrite (best_lower cs b E).
    apply prefix_cons. rewrite !(filter_swap _ (exceeds _)).
    apply IH.
    assert (In b cs) as Hin.
    { apply best_In in E. apply filter_In in E. tauto. }
    pose proof (without_conflicts_shrinks cs b Hin). lia.
  - apply prefix_nil.
Qed.

Lemma acceptedCorrespondences_prefix
    (L : Matrix3d -> Matrix2d -> FieldLine -> FieldLine -> num)
    (r : LineMatchingResult) (pose : Pose2f) (cov : Matrix3d) (prec : Matrix2d) :
  acceptedCorrespondences L r pose cov t2 prec
    `prefix_of` acceptedCorrespondences L r pose cov t1 prec.
Proof.
  unfold acceptedCorrespondences.
  set (cs := scores L pose cov prec _ _).
  rewrite (resolve_fuel _ (length cs) (List.filter (exceeds t2) cs))
    by (pose proof (filter_length_le (exceeds t2) cs); lia).
  rewrite (resolve_fuel _ (length cs) (List.filter (exceeds t1) cs))
    by (pose proof (filter_length_le (exceeds t1) cs); lia).
  apply resolve_prefix. lia.
Qed.

End Search.

(** C7: for the same observations, map lines, candidate pose, pose
    covariance and precision matrix, and thresholds t1 <= t2, the call with
    threshold t2 accepts no more correspondences than the call with
    threshold t1. *)
Theorem raising_threshold_accepts_no_more
    {F : Scalar} {O : ScalarOrder F}
    (L : Matrix3d -> Matrix2d -> FieldLine -> FieldLine -> num)
    (r : LineMatchingResult) (pose : Pose2f) (cov : Matrix3d) (prec : Matrix2d)
    (t1 t2 : num) (out : list FieldLine) (displayWarning requested : bool) :
  nleb t1 t2 = true ->
  length (cr_correspondences
            (getCorrespondencesForLocalizationHypothesis L r pose cov t2 prec
               out displayWarning requested))
  <= length (cr_correspondences
               (getCorrespondencesForLocalizationHypothesis L r pose cov t1 prec
                  out displayWarning requested)).
Proof.
  intros H. unfold getCorrespondencesForLocalizationHypothesis. simpl.
  rewrite !length_map.
  apply prefix_length, acceptedCorrespondences_prefix, H.
Qed.

Lemma raising_threshold_accepts_no_more_witness :
  Rleb 0 2 = true /\
  length (cr_correspondences
            (getCorrespondencesForLocalizationHypothesis evenLikelihood
               matchedFrame nearPose unitCovariance 2%R unitPrecision [] false true))
  <= length (cr_correspondences
               (getCorrespondencesForLocalizationHypothesis evenLikelihood
                  matchedFrame nearPose unitCovariance 0%R unitPrecision [] false true)).
Proof.
  assert (Rleb 0 2 = true) as H.
  { unfold Rleb. destruct (Rle_dec 0 2) as [_|n]; [reflexivity|].
    exfalso. apply n. lra. }
  split; [exact H|].
  exact (raising_threshold_accepts_no_more (O := R_scalar_order) evenLikelihood
           matchedFrame nearPose unitCovariance unitPrecision 0%R 2%R [] false true H).
Defined.

(** ** The model on concrete frames *)

Lemma Rltb_true (a b : R) : (a < b)%R -> Rltb a b = true.
Proof. intros H. unfold Rltb. destruct (Rlt_dec a b); [reflexivity|contradiction]. Qed.

Lemma Rltb_false (a b : R) : (b <= a)%R -> Rltb a b = false.
Proof. intros H. unfold Rltb. destruct (Rlt_dec a b); [lra|reflexivity]. Qed.

(** A point 1 m to the left at camera height 0 is seen level, at a right
    angle. *)
Example projection_of_point_to_the_left :
  getSphericalCoordinatesForPointObservation
    (mkVector2 0%R 1000%R : Vector2 (F := R_scalar)) 0%R
  = mkVector2 0%R (PI / 2)%R.
Proof.
  unfold getSphericalCoordinatesForPointObservation, Vector2_norm, Vector2_angle.
  simpl.
  replace (0 * 0 + 1000 * 1000)%R with (1000 * 1000)%R by ring.
  rewrite sqrt_square by lra.
  unfold Ratan2.
  destruct (Rlt_dec 0 1000) as [_|n]; [|exfalso; apply n; lra].
  destruct (Rlt_dec 0 0) as [H|_]; [lra|].
  f_equal. unfold Rdiv. rewrite Rmult_0_l. apply atan_0.
Qed.

(** With every pairing scored 1, the seen line is matched to the centre line
    under threshold 0 and left unmatched under threshold 2. *)
Example one_line_matched_under_low_threshold :
  let frame := calculateObservationsSphericalCoords matchedFrame in
  let low :=
    getCorrespondencesForLocalizationHypothesis evenLikelihood frame nearPose unitCovariance
      0%R unitPrecision [] false true in
  let high :=
    getCorrespondencesForLocalizationHypothesis evenLikelihood frame nearPose unitCovariance
      2%R unitPrecision [] false true in
  (cr_return low, cr_correspondences low) = (true, [centreLine]) /\
  (cr_return high, cr_correspondences high) = (false, []).
Proof.
  unfold getCorrespondencesForLocalizationHypothesis, acceptedCorrespondences,
    scores, lineLikelihood, evenLikelihood, exceeds. simpl.
  rewrite (Rltb_false 1 1), (Rltb_true 0 1), (Rltb_false 2 1) by lra.
  simpl. split; reflexivity.
Qed.

(** Two observations that both match map line 1 best: the earlier one gets
    it, the later one falls back to map line 0. *)
Example conflict_goes_to_lower_observation :
  let c00 := mkCandidate 0 0 centreLine 5%R in
  let c01 := mkCandidate 0 1 centreLine 7%R in
  let c10 := mkCandidate 1 0 centreLine 3%R in
  let c11 := mkCandidate 1 1 centreLine 7%R in
  resolve 4 [c00; c01; c10; c11] = [c01; c10].
Proof.
  simpl. unfold best, better. simpl.
  repeat (first [rewrite Rltb_true by lra | rewrite Rltb_false by lra]; simpl).
  reflexivity.
Qed.

(** Copying from an array of fewer than 8 entries reads past its end. *)
Example setLineCorrespondences_short_array :
  setLineCorrespondences
    (mkPoseHypothesis (Pose2f_default (F := R_scalar))
       [0; 0; 0; 0; 0; 0; 0; 0]%Z)
    [1; 2; 3]%Z
  = None.
Proof. reflexivity. Qed.

(** An array of 8 entries or more is copied into the 8 slots. *)
Lemma setLineCorrespondences_copies {F : Scalar} (h : PoseHypothesis)
    (a0 a1 a2 a3 a4 a5 a6 a7 : Z) (rest : list Z) :
  length (ph_lineCorrespondences h) = maxNumberOfLineObservations ->
  setLineCorrespondences h ([a0; a1; a2; a3; a4; a5; a6; a7] ++ rest)
  = Some (mkPoseHypothesis (ph_pose h) [a0; a1; a2; a3; a4; a5; a6; a7]).
Proof.
  destruct h as [p lc]. simpl. intros H.
  do 9 (destruct lc as [|? lc]; try discriminate H).
  reflexivity.
Qed.

(** * Further properties of the header *)

(** ** [setLineCorrespondences] *)

Section SetLineCorrespondences.

Context {F : Scalar}.

(** The copy loop overwrites the slots [i .. i+n-1] with the caller's
    entries at the same indices and leaves the others. *)
Lemma copyLineCorrespondences_some (n i : nat) (other lc : list Z) :
  i + n <= length other ->
  i + n <= length lc ->
  copyLineCorrespondences n i other lc
  = Some (take i lc ++ take n (drop i other) ++ drop (i + n) lc).
Proof.
  revert i lc. induction n as [|n IH]; intros i lc Ho Hl; simpl.
  - rewrite Nat.add_0_r, take_drop. reflexivity.
  - destruct (lookup_lt_is_Some_2 other i) as [v Hv]; [lia|].
    rewrite Hv, IH by (rewrite ?length_insert; lia).
    f_equal.
    destruct (lookup_lt_is_Some_2 lc i) as [w Hw]; [lia|].
    rewrite (take_S_r (<[i:=v]> lc) i v)
      by (apply list_lookup_insert_eq; lia).
    rewrite take_insert_ge by lia.
    rewrite drop_insert_lt by lia.
    rewrite (drop_S other v i Hv). simpl.
    rewrite <- app_assoc. simpl.
    replace (S (i + n)) with (i + S n) by lia. reflexivity.
Qed.

(** It reads past the caller's array as soon as that is too short. *)
Lemma copyLineCorrespondences_none (n i : nat) (other lc : list Z) :
  i <= length other ->
  length other < i + n ->
  copyLineCorrespondences n i other lc = None.
Proof.
  revert i lc. induction n as [|n IH]; intros i lc Hi Ho; simpl; [lia|].
  destruct (other !! i) as [v|] eqn:Hv; [|reflexivity].
  apply lookup_lt_Some in Hv. apply IH; lia.
Qed.

Lemma setLineCorrespondences_on_eight_slots
    (h : PoseHypothesis) (other : list Z) :
  length (ph_lineCorrespondences h) = maxNumberOfLineObservations ->
  setLineCorrespondences h other =
    if 8 <=? length other
    then Some (mkPoseHypothesis (ph_pose h) (take 8 other))
    else None.
Proof.
  intros Hlen.
  unfold setLineCorrespondences, maxNumberOfLineObservations in *.
  destruct (8 <=? length other) eqn:E.
  - apply Nat.leb_le in E.
    rewrite copyLineCorrespondences_some by (simpl; lia).
    rewrite (drop_ge (ph_lineCorrespondences h)) by (simpl; lia).
    simpl. rewrite app_nil_r. reflexivity.
  - apply Nat.leb_gt in E.
    rewrite copyLineCorrespondences_none by (simpl; lia). reflexivity.
Qed.

(** X1: on a hypothesis with its 8 slots, [setLineCorrespondences] is
    defined exactly when the caller's array has at least 8 entries; it then
    keeps the pose and replaces all 8 slots by the first 8 entries, whatever
    the slots held before. *)
Theorem setLineCorrespondences_takes_first_eight
    (h : PoseHypothesis) (other : list Z) :
  constructedHypothesis h ->
  setLineCorrespondences h other =
    if 8 <=? length other
    then Some (mkPoseHypothesis (ph_pose h) (take 8 other))
    else None.
Proof.
  intros Hh. apply setLineCorrespondences_on_eight_slots.
  apply constructedHypothesis_length, Hh.
Qed.

(** X2: of two successive calls of [setLineCorrespondences] the second
    one decides the slots: the result is that of the second call alone. *)
Theorem setLineCorrespondences_last_call_wins
    (h h1 : PoseHypothesis) (first second : list Z) :
  constructedHypothesis h ->
  setLineCorrespondences h first = Some h1 ->
  setLineCorrespondences h1 second = setLineCorrespondences h second.
Proof.
  intros Hh H1.
  assert (constructedHypothesis h1) as Hh1 by (eapply ch_set; eauto).
  apply constructedHypothesis_length in Hh, Hh1.
  rewrite (setLineCorrespondences_on_eight_slots h1 second Hh1).
  rewrite (setLineCorrespondences_on_eight_slots h second Hh).
  rewrite (setLineCorrespondences_on_eight_slots h first Hh) in H1.
  destruct (8 <=? length first); [|discriminate].
  injection H1 as <-. reflexivity.
Qed.

(** X3: [reset()] is idempotent, the aggregates it leaves unchanged are
    exactly those whose per-frame sequences are empty and whose flag is
    cleared, and the default-constructed aggregate is one of them, with an
    empty map and no matches. *)
Theorem reset_fixed_points (r : LineMatchingResult) :
  reset (reset r) = reset r /\
  (reset r = r <->
     observations r = [] /\ observationsSphericalCoords r = [] /\
     poseHypothesis r = [] /\ poseHypothesisIntervals r = [] /\
     onlyObservedOneFieldLine r = false) /\
  reset LineMatchingResult_default = LineMatchingResult_default /\
  fieldLines LineMatchingResult_default = [] /\
  containsMatches LineMatchingResult_default = false.
Proof.
  split; [reflexivity|]. split; [|repeat split].
  destruct r as [c m o p q f]. unfold reset. simpl. split.
  - intros [= -> -> -> -> ->]. repeat split.
  - intros (-> & -> & -> & -> & ->). reflexivity.
Qed.

End SetLineCorrespondences.

Lemma setLineCorrespondences_takes_first_eight_witness :
  setLineCorrespondences
    (mkPoseHypothesis (Pose2f_default (F := R_scalar))
       [0; 0; 0; 0; 0; 0; 0; 0]%Z)
    [3; 1; 4; 1; 5; 9; 2; 6; 5; 3]%Z
  = Some (mkPoseHypothesis Pose2f_default [3; 1; 4; 1; 5; 9; 2; 6]%Z).
Proof.
  exact (setLineCorrespondences_takes_first_eight
           (mkPoseHypothesis Pose2f_default [0; 0; 0; 0; 0; 0; 0; 0]%Z)
           [3; 1; 4; 1; 5; 9; 2; 6; 5; 3]%Z (ch_default _ eq_refl)).
Defined.

Lemma setLineCorrespondences_last_call_wins_witness :
  setLineCorrespondences
    (mkPoseHypothesis (Pose2f_default (F := R_scalar))
       [7; 7; 7; 7; 7; 7; 7; 7]%Z)
    [0; 1; -1; -1; -1; -1; -1; -1]%Z
  = setLineCorrespondences
      (mkPoseHypothesis Pose2f_default [0; 0; 0; 0; 0; 0; 0; 0]%Z)
      [0; 1; -1; -1; -1; -1; -1; -1]%Z.
Proof.
  exact (setLineCorrespondences_last_call_wins
           (mkPoseHypothesis Pose2f_default [0; 0; 0; 0; 0; 0; 0; 0]%Z)
           (mkPoseHypothesis Pose2f_default [7; 7; 7; 7; 7; 7; 7; 7]%Z)
           [7; 7; 7; 7; 7; 7; 7; 7]%Z [0; 1; -1; -1; -1; -1; -1; -1]%Z
           (ch_default _ eq_refl) eq_refl).
Defined.

(** ** The spherical projection in exact arithmetic *)

Section SphericalGeometry.

Local Open Scope R_scope.

Lemma Ratan2_right (y x : R) : 0 < x -> Ratan2 y x = atan (y / x).
Proof.
  intros H. unfold Ratan2. destruct (Rlt_dec 0 x); [reflexivity|contradiction].
Qed.

Lemma Ratan2_axis (y : R) :
  Ratan2 y 0 =
    if Rlt_dec 0 y then PI / 2 else if Rlt_dec y 0 then - (PI / 2) else 0.
Proof.
  unfold Ratan2. destruct (Rlt_dec 0 0) as [H|_]; [lra|reflexivity].
Qed.

Lemma Vector2_norm_nonneg (p : Vector2 (F := R_scalar)) : 0 <= Vector2_norm p.
Proof. apply sqrt_pos. Qed.

(** The angle of a point at planar distance [d >= 0] and height [h]. *)
Lemma elevation_range (h d : R) :
  0 <= d -> - (PI / 2) <= Ratan2 h d <= PI / 2.
Proof.
  intros [Hd|<-]; pose proof PI_RGT_0.
  - rewrite Ratan2_right by exact Hd. pose proof (atan_bound (h / d)). lra.
  - rewrite Ratan2_axis.
    destruct (Rlt_dec 0 h); [lra|]. destruct (Rlt_dec h 0); lra.
Qed.

Lemma elevation_positive (h d : R) : 0 <= d -> 0 < h -> 0 < Ratan2 h d.
Proof.
  intros [Hd|<-] Hh; pose proof PI_RGT_0.
  - rewrite Ratan2_right by exact Hd. rewrite <- atan_0.
    apply atan_increasing. apply Rdiv_lt_0_compat; assumption.
  - rewrite Ratan2_axis. destruct (Rlt_dec 0 h); [lra|contradiction].
Qed.

Lemma elevation_level (d : R) : 0 <= d -> Ratan2 0 d = 0.
Proof.
  intros [Hd|<-].
  - rewrite Ratan2_right by exact Hd. unfold Rdiv. rewrite Rmult_0_l.
    apply atan_0.
  - rewrite Ratan2_axis.
    destruct (Rlt_dec 0 0) as [H|_]; [lra|reflexivity].
Qed.

Lemma elevation_decreasing (h d1 d2 : R) :
  0 < h -> 0 <= d1 -> d1 < d2 -> Ratan2 h d2 < Ratan2 h d1.
Proof.
  intros Hh [Hd|<-] Hlt.
  - rewrite !Ratan2_right by lra. apply atan_increasing.
    unfold Rdiv. apply Rmult_lt_compat_l; [exact Hh|].
    apply Rinv_lt_contravar; [nra|exact Hlt].
  - rewrite Ratan2_right by lra. rewrite Ratan2_axis.
    destruct (Rlt_dec 0 h); [|contradiction].
    apply atan_bound.
Qed.

(** X4: the vertical angle lies between -PI/2 and PI/2; it is not
    negative for a camera at or above the ground and positive for a camera
    above the ground. *)
Theorem vertical_angle_range (p : Vector2 (F := R_scalar)) (h : R) :
  let v := vx (getSphericalCoordinatesForPointObservation p h) in
  - (PI / 2) <= v <= PI / 2 /\
  (0 <= h -> 0 <= v) /\
  (0 < h -> 0 < v).
Proof.
  simpl. pose proof (Vector2_norm_nonneg p) as Hd.
  split; [apply elevation_range, Hd|]. split.
  - intros [Hh|<-].
    + left. apply elevation_positive; assumption.
    + right. symmetry. apply elevation_level, Hd.
  - intros Hh. apply elevation_positive; assumption.
Qed.

(** X5: with camera height 0 the vertical angle is 0 for every point, so
    that the projection keeps the bearing only: two points with the same
    bearing get the same projection, however far they are. *)
Theorem zero_height_forgets_distance (p q : Vector2 (F := R_scalar)) :
  vx (getSphericalCoordinatesForPointObservation p 0) = 0 /\
  (Vector2_angle p = Vector2_angle q ->
   getSphericalCoordinatesForPointObservation p 0
   = getSphericalCoordinatesForPointObservation q 0).
Proof.
  assert (forall u : Vector2 (F := R_scalar),
            vx (getSphericalCoordinatesForPointObservation u 0) = 0) as H0.
  { intros u. simpl. apply elevation_level, Vector2_norm_nonneg. }
  split; [apply H0|].
  intros Ha. unfold getSphericalCoordinatesForPointObservation.
  rewrite Ha. f_equal.
  transitivity 0; [|symmetry]; apply elevation_level, Vector2_norm_nonneg.
Qed.

(** X6: in exact arithmetic (the scalars taken as real numbers, without
    the rounding of [double]), for a camera above the ground a point that
    is farther away is seen under a strictly smaller vertical angle. *)
Theorem farther_is_lower (p q : Vector2 (F := R_scalar)) (h : R) :
  0 < h ->
  Vector2_norm p < Vector2_norm q ->
  vx (getSphericalCoordinatesForPointObservation q h)
  < vx (getSphericalCoordinatesForPointObservation p h).
Proof.
  intros Hh Hlt. simpl.
  apply elevation_decreasing; [exact Hh|apply Vector2_norm_nonneg|exact Hlt].
Qed.

End SphericalGeometry.

Lemma vertical_angle_range_witness :
  (0 < vx (getSphericalCoordinatesForPointObservation
             (@mkVector2 R_scalar 1000%R 0%R) 500%R))%R.
Proof.
  apply (vertical_angle_range (@mkVector2 R_scalar 1000%R 0%R) 500%R). lra.
Defined.

Lemma zero_height_forgets_distance_witness :
  getSphericalCoordinatesForPointObservation
    (@mkVector2 R_scalar 1000%R 0%R) 0%R
  = getSphericalCoordinatesForPointObservation
      (@mkVector2 R_scalar 3000%R 0%R) 0%R.
Proof.
  apply (zero_height_forgets_distance (@mkVector2 R_scalar 1000%R 0%R) (@mkVector2 R_scalar 3000%R 0%R)).
  unfold Vector2_angle. simpl.
  rewrite !elevation_level by lra. reflexivity.
Defined.

Lemma farther_is_lower_witness :
  (vx (getSphericalCoordinatesForPointObservation
         (@mkVector2 R_scalar 4%R 0%R) 500%R)
   < vx (getSphericalCoordinatesForPointObservation
           (@mkVector2 R_scalar 0%R 0%R) 500%R))%R.
Proof.
  apply (farther_is_lower (@mkVector2 R_scalar 0%R 0%R) (@mkVector2 R_scalar 4%R 0%R) 500%R).
  - lra.
  - unfold Vector2_norm. simpl.
    replace (0 * 0 + 0 * 0)%R with 0%R by ring.
    replace (4 * 4 + 0 * 0)%R with (4 * 4)%R by ring.
    rewrite sqrt_0, sqrt_square by lra. lra.
Defined.

Section SphericalInverse.

Local Open Scope R_scope.

(** X7: for a camera above the ground the projection loses nothing: two
    points with the same spherical coordinates are the same point. *)
Theorem positive_height_projection_injective
    (p q : Vector2 (F := R_scalar)) (h : R) :
  0 < h ->
  getSphericalCoordinatesForPointObservation p h
  = getSphericalCoordinatesForPointObservation q h ->
  p = q.
Proof.
  intros Hh Heq. destruct p as [px py], q as [qx qy].
  unfold getSphericalCoordinatesForPointObservation in Heq.
  injection Heq as Hv Ha.
  set (dp := Vector2_norm (mkVector2 px py)) in *.
  set (dq := Vector2_norm (mkVector2 qx qy)) in *.
  change (Ratan2 h dp = Ratan2 h dq) in Hv.
  change (Ratan2 py px = Ratan2 qy qx) in Ha.
  destruct (Ratan2_polar dp h) as [Hdp Hhp].
  destruct (Ratan2_polar dq h) as [Hdq Hhq].
  rewrite <- Hv in Hdq, Hhq.
  set (v := Ratan2 h dp) in *.
  assert (sin v <> 0) as Hs.
  { intros E. rewrite E in Hhp. lra. }
  assert (sqrt (dp * dp + h * h) = sqrt (dq * dq + h * h)) as HR.
  { apply (Rmult_eq_reg_r (sin v)); [|exact Hs]. lra. }
  assert (dp = dq) as Hd.
  { rewrite Hdp, Hdq, HR. reflexivity. }
  assert (px = dp * cos (Ratan2 py px) /\ py = dp * sin (Ratan2 py px))
    as [Hpx Hpy] by apply Ratan2_polar.
  assert (qx = dq * cos (Ratan2 qy qx) /\ qy = dq * sin (Ratan2 qy qx))
    as [Hqx Hqy] by apply Ratan2_polar.
  rewrite <- Ha, <- Hd in Hqx, Hqy.
  f_equal; congruence.
Qed.

Lemma Ratan2_scale (k y x : R) :
  0 < k -> Ratan2 (k * y) (k * x) = Ratan2 y x.
Proof.
  intros Hk. unfold Ratan2.
  assert (x <> 0 -> k * y / (k * x) = y / x) as Hq by (intros; field; lra).
  repeat match goal with
         | |- context [Rlt_dec ?a ?b] => destruct (Rlt_dec a b)
         | |- context [Rle_dec ?a ?b] => destruct (Rle_dec a b)
         end;
    try (exfalso; nra); try reflexivity; rewrite Hq by lra; reflexivity.
Qed.

Lemma Vector2_norm_scale (k x y : R) :
  0 <= k ->
  Vector2_norm (@mkVector2 R_scalar (k * x) (k * y))
  = k * Vector2_norm (@mkVector2 R_scalar x y).
Proof.
  intros Hk. unfold Vector2_norm. simpl.
  replace (k * x * (k * x) + k * y * (k * y)) with (k * k * (x * x + y * y))
    by ring.
  rewrite sqrt_mult by nra. rewrite sqrt_square by exact Hk. reflexivity.
Qed.

(** X8: in exact arithmetic (the scalars taken as real numbers, without
    the rounding of [double]), the projection is normalised by the camera
    height: scaling the point and the camera height by the same positive
    factor leaves both angles as they are. *)
Theorem projection_scale_invariant
    (p : Vector2 (F := R_scalar)) (h k : R) :
  0 < k ->
  getSphericalCoordinatesForPointObservation
    (mkVector2 (k * vx p) (k * vy p)) (k * h)
  = getSphericalCoordinatesForPointObservation p h.
Proof.
  intros Hk. destruct p as [x y].
  unfold getSphericalCoordinatesForPointObservation, Vector2_angle.
  rewrite Vector2_norm_scale by lra. simpl.
  rewrite !Ratan2_scale by exact Hk. reflexivity.
Qed.

Lemma add_sub_same (x t d : R) : x + d - (t + d) = x - t.
Proof. ring. Qed.



(** X10: moving the pose and the point by the same displacement leaves
    the projection under the pose overload as it is. *)
Theorem pose_projection_translation_invariant
    (a : R) (t p d : Vector2 (F := R_scalar)) (h : R) :
  getSphericalCoordinatesForPointObservation_pose
    (mkPose2f a (Vector2_add t d)) (Vector2_add p d) h
  = getSphericalCoordinatesForPointObservation_pose (mkPose2f a t) p h.
Proof.
  unfold getSphericalCoordinatesForPointObservation_pose.
  cbn [rotation translation].
  replace (Vector2_sub (Vector2_add p d) (Vector2_add t d))
    with (Vector2_sub p t); [reflexivity|].
  destruct p as [px py], t as [tx ty], d as [dx dy].
  unfold Vector2_sub, Vector2_add. simpl.
  f_equal; [symmetry; apply add_sub_same | symmetry; apply add_sub_same].
Qed.

End SphericalInverse.

Lemma positive_height_projection_injective_witness :
  @mkVector2 R_scalar 1000%R 0%R = @mkVector2 R_scalar 1000%R 0%R.
Proof.
  apply (positive_height_projection_injective
           (@mkVector2 R_scalar 1000%R 0%R) (@mkVector2 R_scalar 1000%R 0%R)
           500%R); [lra | reflexivity].
Defined.

Lemma projection_scale_invariant_witness :
  getSphericalCoordinatesForPointObservation
    (@mkVector2 R_scalar (2 * 1000)%R (2 * 0)%R) (2 * 500)%R
  = getSphericalCoordinatesForPointObservation
      (@mkVector2 R_scalar 1000%R 0%R) 500%R.
Proof.
  apply (projection_scale_invariant (@mkVector2 R_scalar 1000%R 0%R) 500%R 2%R).
  lra.
Defined.

Section PoseFrames.

Local Open Scope R_scope.









End PoseFrames.

(** * The image view *)

(** ** Packing and unpacking a pixel *)

Section PixelArithmetic.

Local Open Scope Z_scope.

Lemma to_int_small (z : Z) : - 2 ^ 31 <= z < 2 ^ 31 -> to_int z = z.
Proof.
  intros H. unfold to_int, int_modulus.
  destruct (Z_lt_le_dec z 0) as [Hneg|Hpos].
  - replace (z mod 2 ^ 32) with (z + 2 ^ 32).
    + destruct (z + 2 ^ 32 <? 2 ^ 31) eqn:E; [apply Z.ltb_lt in E; lia | lia].
    + apply Z.mod_unique with (q := -1); lia.
  - rewrite Z.mod_small by lia.
    destruct (z <? 2 ^ 31) eqn:E; [reflexivity | apply Z.ltb_ge in E; lia].
Qed.

Lemma clampChannel_byte (c : Z) : 0 <= clampChannel c <= 255.
Proof.
  unfold clampChannel.
  destruct (c <? 0) eqn:E1; [lia|]. apply Z.ltb_ge in E1.
  destruct (c >? 255) eqn:E2; [lia|].
  rewrite Z.gtb_ltb in E2. apply Z.ltb_ge in E2. lia.
Qed.

Lemma clampChannel_of_byte (c : Z) : 0 <= c <= 255 -> clampChannel c = c.
Proof.
  intros H. unfold clampChannel.
  destruct (c <? 0) eqn:E1; [apply Z.ltb_lt in E1; lia|].
  destruct (c >? 255) eqn:E2; [|reflexivity].
  rewrite Z.gtb_ltb in E2. apply Z.ltb_lt in E2. lia.
Qed.

(** Bits that do not overlap add up. *)
Lemma land_above_below (a b n : Z) :
  0 <= n -> 0 <= b < 2 ^ n -> Z.land (a * 2 ^ n) b = 0.
Proof.
  intros Hn Hb. apply Z.bits_inj'. intros i Hi.
  rewrite Z.land_spec, Z.bits_0.
  destruct (Z_lt_le_dec i n) as [Hlow|Hhigh].
  - rewrite Z.mul_pow2_bits_low by lia. reflexivity.
  - replace (Z.testbit b i) with false; [apply andb_false_r|].
    symmetry. destruct (Z.eq_dec b 0) as [->|Hb0]; [apply Z.bits_0|].
    apply Z.bits_above_log2; [lia|].
    apply Z.log2_lt_pow2; [lia|].
    apply Z.lt_le_trans with (2 ^ n); [lia|].
    apply Z.pow_le_mono_r; lia.
Qed.

Lemma lor_above_below (a b n : Z) :
  0 <= n -> 0 <= b < 2 ^ n -> Z.lor (a * 2 ^ n) b = a * 2 ^ n + b.
Proof.
  intros Hn Hb.
  pose proof (Z.add_lor_land (a * 2 ^ n) b) as H.
  rewrite (land_above_below a b n Hn Hb) in H. lia.
Qed.

(** The stored pixel is opaque and holds the three clamped channels. *)
Lemma packRGB_sum (r g b : Z) :
  packRGB r g b
  = 0xff000000 + 65536 * clampChannel r + 256 * clampChannel g
    + clampChannel b.
Proof.
  unfold packRGB, int_shl, to_unsigned, int_modulus.
  pose proof (clampChannel_byte r) as Hr.
  pose proof (clampChannel_byte g) as Hg.
  pose proof (clampChannel_byte b) as Hb.
  set (R := clampChannel r) in *. set (G := clampChannel g) in *.
  set (B := clampChannel b) in *.
  rewrite !Z.shiftl_mul_pow2 by lia.
  change (2 ^ 16) with 65536. change (2 ^ 8) with 256.
  change (2 ^ 32) with 4294967296.
  rewrite !to_int_small by (change (2 ^ 31) with 2147483648; lia).
  assert (Z.lor (R * 65536) (G * 256) = (R * 256 + G) * 256) as ->.
  { pose proof (lor_above_below R (G * 256) 16) as H.
    change (2 ^ 16) with 65536 in H. rewrite H; lia. }
  assert (Z.lor ((R * 256 + G) * 256) B = (R * 256 + G) * 256 + B) as ->.
  { pose proof (lor_above_below (R * 256 + G) B 8) as H.
    change (2 ^ 8) with 256 in H. apply H; lia. }
  rewrite Z.lor_comm.
  assert (Z.lor 0xff000000 ((R * 256 + G) * 256 + B)
          = 0xff000000 + ((R * 256 + G) * 256 + B)) as ->.
  { pose proof (lor_above_below 255 ((R * 256 + G) * 256 + B) 24) as H.
    change (2 ^ 24) with 16777216 in H.
    change (255 * 16777216) with 0xff000000 in H. apply H; lia. }
  rewrite Z.mod_small by lia. lia.
Qed.

Lemma channels_of_sum (R G B : Z) :
  0 <= R <= 255 -> 0 <= G <= 255 -> 0 <= B <= 255 ->
  let p := 0xff000000 + 65536 * R + 256 * G + B in
  red_of p = R /\ green_of p = G /\ blue_of p = B /\ Z.shiftr p 24 = 255.
Proof.
  intros HR HG HB p. unfold red_of, green_of, blue_of.
  change 0xff with (Z.ones 8).
  rewrite !Z.land_ones, !Z.shiftr_div_pow2 by lia.
  subst p. change (2 ^ 16) with 65536. change (2 ^ 8) with 256.
  change (2 ^ 24) with 16777216.
  change (Z.ones 8) with 255.
  repeat split; Z.div_mod_to_equations; lia.
Qed.

(** The conversion never leaves the range of [int]: on bytes it is the
    luminance plus the rounded-down scaled chrominance. *)
Lemma copyImage_rgb_exact (px : Pixel) :
  Pixel_bytes px ->
  copyImage_rgb px =
    (px_y px + 22972 * (px_cr px - 128) / 16384,
     px_y px + (- 5662 * (px_cb px - 128) - 11706 * (px_cr px - 128)) / 16384,
     px_y px + 29016 * (px_cb px - 128) / 16384).
Proof.
  destruct px as [y cb cr]. unfold Pixel_bytes, is_byte. simpl.
  intros (Hy & Hcb & Hcr).
  unfold copyImage_rgb, int_shl, int_shr, int_add, int_sub, int_mul. simpl.
  rewrite Z.shiftl_mul_pow2 by lia. change (2 ^ 14) with 16384.
  rewrite !Z.shiftr_div_pow2 by lia. change (2 ^ 14) with 16384.
  rewrite (to_int_small (y * 16384)) by lia.
  rewrite (to_int_small (cr - 128)), (to_int_small (cb - 128)) by lia.
  rewrite (to_int_small (22972 * _)), (to_int_small (5662 * _)),
    (to_int_small (11706 * _)), (to_int_small (29016 * _)) by lia.
  rewrite (to_int_small (y * 16384 + _)) by lia.
  rewrite (to_int_small (y * 16384 - 5662 * (cb - 128))) by lia.
  rewrite (to_int_small (y * 16384 - 5662 * (cb - 128) - _)) by lia.
  rewrite (to_int_small (y * 16384 + _)) by lia.
  f_equal; [f_equal|].
  - rewrite Z.div_add_l by lia. reflexivity.
  - replace (y * 16384 - 5662 * (cb - 128) - 11706 * (cr - 128))
      with (y * 16384 + (- 5662 * (cb - 128) - 11706 * (cr - 128))) by lia.
    rewrite Z.div_add_l by lia. reflexivity.
  - rewrite Z.div_add_l by lia. reflexivity.
Qed.

End PixelArithmetic.

Section CopyImagePixels.

Local Open Scope Z_scope.

Lemma packRGB_channels (r g b : Z) :
  red_of (packRGB r g b) = clampChannel r /\
  green_of (packRGB r g b) = clampChannel g /\
  blue_of (packRGB r g b) = clampChannel b /\
  Z.shiftr (packRGB r g b) 24 = 0xff.
Proof.
  rewrite packRGB_sum.
  apply channels_of_sum; apply clampChannel_byte.
Qed.

(** X13: whatever the pixel, the value that [copyImage] stores is opaque
    (its top byte is 0xff), fits 32 bits, and gives back the three
    converted channels clamped to 0..255 when its bytes are read as the
    second loop reads them. *)
Theorem copyImage_pixel_channels (px : Pixel) :
  let '(r, g, b) := copyImage_rgb px in
  let p := copyImage_pixel px in
  red_of p = clampChannel r /\
  green_of p = clampChannel g /\
  blue_of p = clampChannel b /\
  Z.shiftr p 24 = 0xff /\
  0xff000000 <= p < 2 ^ 32.
Proof.
  unfold copyImage_pixel. destruct (copyImage_rgb px) as [[r g] b].
  destruct (packRGB_channels r g b) as (H1 & H2 & H3 & H4).
  split; [exact H1|]. split; [exact H2|]. split; [exact H3|].
  split; [exact H4|].
  rewrite packRGB_sum.
  pose proof (clampChannel_byte r). pose proof (clampChannel_byte g).
  pose proof (clampChannel_byte b). change (2 ^ 32) with 4294967296. lia.
Qed.

(** X14: on 8-bit channels the conversion stays within the range of
    [int], so that each colour is the luminance plus the scaled
    chrominance rounded down: r = y + floor(22972 (cr - 128) / 2^14),
    g = y + floor((-5662 (cb - 128) - 11706 (cr - 128)) / 2^14),
    b = y + floor(29016 (cb - 128) / 2^14); a pixel without chrominance
    (cb = cr = 128) is stored as the grey of its luminance. *)
Theorem copyImage_rgb_without_overflow (px : Pixel) :
  Pixel_bytes px ->
  copyImage_rgb px =
    (px_y px + 22972 * (px_cr px - 128) / 16384,
     px_y px + (- 5662 * (px_cb px - 128) - 11706 * (px_cr px - 128)) / 16384,
     px_y px + 29016 * (px_cb px - 128) / 16384) /\
  copyImage_pixel (mkPixel (px_y px) 128 128)
  = 0xff000000 + 0x010101 * px_y px.
Proof.
  intros Hb. split; [apply copyImage_rgb_exact, Hb|].
  destruct Hb as (Hy & _ & _).
  unfold copyImage_pixel.
  rewrite copyImage_rgb_exact by (repeat split; unfold is_byte in *; simpl; lia).
  simpl px_y; simpl px_cb; simpl px_cr.
  change (22972 * (128 - 128) / 16384) with 0.
  change ((- 5662 * (128 - 128) - 11706 * (128 - 128)) / 16384) with 0.
  change (29016 * (128 - 128) / 16384) with 0.
  rewrite !Z.add_0_r, packRGB_sum.
  unfold is_byte in Hy. rewrite clampChannel_of_byte by lia. lia.
Qed.

(** X15: the colour values of the tool tip are those of [copyImage]
    before clamping: on 8-bit channels they range over -180..433,
    -135..390 and -227..479, and the image shows each of them clamped to
    0..255. *)
Theorem tooltip_rgb_unclamped (px : Pixel) :
  Pixel_bytes px ->
  let '(r, g, b) := mouseMoveEvent_rgb px in
  (- 180 <= r <= 433 /\ - 135 <= g <= 390 /\ - 227 <= b <= 479) /\
  red_of (copyImage_pixel px) = clampChannel r /\
  green_of (copyImage_pixel px) = clampChannel g /\
  blue_of (copyImage_pixel px) = clampChannel b.
Proof.
  intros Hb.
  change (mouseMoveEvent_rgb px) with (copyImage_rgb px).
  unfold copyImage_pixel.
  rewrite (copyImage_rgb_exact px Hb).
  split.
  2:{ match goal with
      | |- context [packRGB ?r ?g ?b] =>
          destruct (packRGB_channels r g b) as (H1 & H2 & H3 & _)
      end.
      split; [exact H1|]. split; [exact H2|exact H3]. }
  destruct px as [y cb cr]. destruct Hb as (Hy & Hcb & Hcr).
  unfold is_byte in *. simpl in *.
  repeat split; Z.div_mod_to_equations; lia.
Qed.

End CopyImagePixels.

Lemma copyImage_rgb_without_overflow_witness :
  copyImage_rgb (mkPixel 255 0 255) = (433, 208, 28)%Z.
Proof.
  refine (eq_trans (proj1 (copyImage_rgb_without_overflow (mkPixel 255 0 255) _)) _).
  - unfold Pixel_bytes, is_byte. simpl. lia.
  - reflexivity.
Defined.

Lemma tooltip_rgb_unclamped_witness :
  red_of (copyImage_pixel (mkPixel 255 0 255)) = clampChannel 433.
Proof.
  refine (proj1 (proj2 (tooltip_rgb_unclamped (mkPixel 255 0 255) _))).
  unfold Pixel_bytes, is_byte. simpl. lia.
Defined.

(** ** The two loops of [copyImage] *)

Section CopyImageLoops.

Variable gainIsOne : bool.
Variable gainChannel : Z -> Z.

Lemma flat_map_rows_length {A : Type} (f : nat -> list A) (w s n : nat) :
  (forall y, length (f y) = w) ->
  length (flat_map f (seq s n)) = n * w.
Proof.
  intros Hf. revert s. induction n as [|n IH]; intros s; simpl; [reflexivity|].
  rewrite length_app, Hf, IH. reflexivity.
Qed.

Lemma flat_map_rows_lookup {A : Type} (f : nat -> list A) (w s n y x : nat) :
  (forall y, length (f y) = w) ->
  y < n -> x < w ->
  flat_map f (seq s n) !! (y * w + x) = f (s + y) !! x.
Proof.
  intros Hf. revert s y. induction n as [|n IH]; intros s y Hy Hx; [lia|].
  simpl. destruct y as [|y].
  - rewrite lookup_app_l by (rewrite Hf; lia).
    rewrite Nat.add_0_r. reflexivity.
  - rewrite lookup_app_r by (rewrite Hf; simpl; lia).
    rewrite Hf. replace (S y * w + x - w) with (y * w + x) by (simpl; lia).
    rewrite IH by lia. replace (S s + y) with (s + S y) by lia. reflexivity.
Qed.

Lemma convertedPixels_length (img : Image) :
  length (convertedPixels img) = img_width img * img_height img.
Proof.
  unfold convertedPixels.
  rewrite (flat_map_rows_length _ (img_width img)).
  - lia.
  - intros y. rewrite length_map, length_seq. reflexivity.
Qed.

Lemma convertedPixels_lookup (img : Image) (x y : nat) :
  x < img_width img -> y < img_height img ->
  convertedPixels img !! (y * img_width img + x)
  = Some (copyImage_pixel (img_pixel img y x)).
Proof.
  intros Hx Hy. unfold convertedPixels.
  rewrite (flat_map_rows_lookup _ (img_width img)); try assumption.
  - simpl. rewrite list_lookup_fmap, lookup_seq_lt by assumption. reflexivity.
  - intros y'. rewrite length_map, length_seq. reflexivity.
Qed.

(** How the second loop leaves the buffer: from [p] on, every second
    pixel below [pEnd] is scaled. *)
Lemma gainLoop_lookup (fuel p pEnd : nat) (bits : list Z) (i : nat) :
  pEnd <= length bits ->
  pEnd <= p + 2 * fuel ->
  gainLoop gainChannel fuel p pEnd bits !! i =
    if (p <=? i) && (i <? pEnd) && Nat.even (i - p)
    then gainPixel gainChannel <$> bits !! i
    else bits !! i.
Proof.
  revert p bits. induction fuel as [|fuel IH]; intros p bits Hlen Hfuel; simpl.
  - destruct (p <=? i) eqn:E1; [|reflexivity].
    destruct (i <? pEnd) eqn:E2; [|reflexivity].
    apply Nat.leb_le in E1. apply Nat.ltb_lt in E2. lia.
  - destruct (p <? pEnd) eqn:Ep.
    + apply Nat.ltb_lt in Ep.
      destruct (lookup_lt_is_Some_2 bits p) as [v Hv]; [lia|].
      rewrite Hv, IH by (rewrite ?length_insert; lia).
      destruct (Nat.eq_dec i p) as [->|Hne].
      * rewrite list_lookup_insert_eq by lia.
        replace (p + 1 + 1 <=? p) with false by (symmetry; apply Nat.leb_gt; lia).
        rewrite Nat.leb_refl, Nat.sub_diag, Hv. simpl.
        replace (p <? pEnd) with true by (symmetry; apply Nat.ltb_lt; lia).
        reflexivity.
      * rewrite list_lookup_insert_ne by lia.
        destruct (le_lt_dec (p + 1 + 1) i) as [Hge|Hlt].
        -- replace (p + 1 + 1 <=? i) with true by (symmetry; apply Nat.leb_le; lia).
           replace (p <=? i) with true by (symmetry; apply Nat.leb_le; lia).
           replace (i - p) with (S (S (i - (p + 1 + 1)))) by lia.
           reflexivity.
        -- replace (p + 1 + 1 <=? i) with false by (symmetry; apply Nat.leb_gt; lia).
           simpl. destruct (p <=? i) eqn:E1; [|reflexivity].
           apply Nat.leb_le in E1. assert (i = p + 1) as -> by lia.
           replace (p + 1 - p) with 1 by lia. simpl.
           rewrite andb_false_r. reflexivity.
    + apply Nat.ltb_ge in Ep.
      destruct (p <=? i) eqn:E1; [|reflexivity].
      destruct (i <? pEnd) eqn:E2; [|reflexivity].
      apply Nat.leb_le in E1. apply Nat.ltb_lt in E2. lia.
Qed.

Lemma gainLoop_length (fuel p pEnd : nat) (bits : list Z) :
  length (gainLoop gainChannel fuel p pEnd bits) = length bits.
Proof.
  revert p bits. induction fuel as [|fuel IH]; intros p bits; simpl; [reflexivity|].
  destruct (p <? pEnd); [|reflexivity].
  destruct (bits !! p); [|reflexivity].
  rewrite IH, length_insert. reflexivity.
Qed.

(** X16: [copyImage] is defined exactly when the buffer has room for
    width x height pixels; it keeps the length of the buffer and what lies
    behind the image, and, with gain 1, stores the converted pixel of
    column x and row y at index y * width + x. *)
Theorem copyImage_fills_row_by_row
    (img : Image) (bits : list Z) :
  let size := img_width img * img_height img in
  (is_Some (copyImage gainIsOne gainChannel img bits) <-> size <= length bits) /\
  (forall out, copyImage gainIsOne gainChannel img bits = Some out ->
     length out = length bits /\
     (forall i, size <= i -> out !! i = bits !! i) /\
     (gainIsOne = true ->
      forall x y, x < img_width img -> y < img_height img ->
        out !! (y * img_width img + x)
        = Some (copyImage_pixel (img_pixel img y x)))).
Proof.
  intros size. unfold copyImage, writeFromStart.
  pose proof (convertedPixels_length img) as Hlen. fold size in Hlen.
  rewrite Hlen. fold size.
  destruct (size <=? length bits) eqn:E.
  - apply Nat.leb_le in E. split.
    + split; [intros _; exact E|intros _].
      destruct gainIsOne; eexists; reflexivity.
    + intros out Hout.
      set (bits' := convertedPixels img ++ drop size bits) in *.
      assert (length bits' = length bits) as Hl'.
      { unfold bits'. rewrite length_app, length_drop, Hlen. lia. }
      assert (forall i, size <= i -> bits' !! i = bits !! i) as Hrest.
      { intros i Hi. unfold bits'.
        rewrite lookup_app_r by (rewrite Hlen; exact Hi).
        rewrite Hlen, lookup_drop. f_equal. lia. }
      destruct gainIsOne; injection Hout as <-.
      * split; [exact Hl'|]. split; [exact Hrest|].
        intros _ x y Hx Hy. unfold bits'.
        rewrite lookup_app_l.
        -- apply convertedPixels_lookup; assumption.
        -- rewrite Hlen. unfold size. nia.
      * split; [rewrite gainLoop_length; exact Hl'|].
        split; [|discriminate].
        intros i Hi. rewrite gainLoop_lookup by lia.
        replace (i <? size) with false by (symmetry; apply Nat.ltb_ge; lia).
        rewrite andb_false_r. apply Hrest, Hi.
  - apply Nat.leb_gt in E. split.
    + split; [intros [? H]; discriminate H|lia].
    + intros out H. discriminate H.
Qed.

(** X17: with a gain other than 1, the second loop of [copyImage] scales
    the pixels at even index only: the store [*p++] and the loop header
    [++p] both advance the pointer, so every pixel at odd index keeps its
    converted colour. *)
Theorem copyImage_gain_on_even_pixels
    (img : Image) (bits out : list Z) (i : nat) :
  gainIsOne = false ->
  copyImage gainIsOne gainChannel img bits = Some out ->
  i < img_width img * img_height img ->
  out !! i =
    if Nat.even i
    then gainPixel gainChannel <$> convertedPixels img !! i
    else convertedPixels img !! i.
Proof.
  intros Hg Hout Hi. unfold copyImage, writeFromStart in Hout.
  pose proof (convertedPixels_length img) as Hlen.
  rewrite Hlen, Hg in Hout.
  destruct (_ <=? length bits) eqn:E; [|discriminate].
  apply Nat.leb_le in E. injection Hout as <-.
  rewrite gainLoop_lookup.
  - simpl. rewrite Nat.sub_0_r.
    replace (i <? _) with true by (symmetry; apply Nat.ltb_lt; exact Hi).
    simpl. rewrite lookup_app_l by (rewrite Hlen; exact Hi).
    reflexivity.
  - rewrite length_app, length_drop, Hlen. lia.
  - lia.
Qed.

End CopyImageLoops.

Lemma copyImage_fills_row_by_row_witness :
  is_Some
    (copyImage true (fun c => c)
       (mkImage 2 1 0 (fun _ _ => mkPixel 128 128 128)) [0; 0; 7]%Z).
Proof.
  apply (proj1 (copyImage_fills_row_by_row true (fun c => c)
                  (mkImage 2 1 0 (fun _ _ => mkPixel 128 128 128)) [0; 0; 7]%Z)).
  simpl. lia.
Defined.

Lemma copyImage_gain_on_even_pixels_witness :
  [0xffffffff; 0xff808080]%Z !! 1 = Some 0xff808080%Z.
Proof.
  exact (copyImage_gain_on_even_pixels false (fun c => (2 * c)%Z)
           (mkImage 2 1 0 (fun _ _ => mkPixel 128 128 128)) [0; 0]%Z
           [0xffffffff; 0xff808080]%Z 1 eq_refl eq_refl (le_n 2)).
Defined.

(** ** Zooming and panning *)

Section Zoom.

Local Open Scope R_scope.



(** X19: the minus key has no lower clamp.  At 1/10 or below it leaves
    the view as it is, but from a zoom factor between 1/10 and 2/10 it
    goes below 1/10, the bound that the wheel and the pinch gesture
    keep. *)
Theorem minus_key_goes_below_wheel_bound (s : ViewState) :
  (zoom s <= 1 / 10 ->
   keyPressEvent Key_Minus s = s) /\
  (1 / 10 < zoom s < 2 / 10 ->
   0 < zoom (keyPressEvent Key_Minus s) < 1 / 10).
Proof.
  destruct s as [z ox oy]. simpl. split; intros H.
  - destruct (Rgt_dec z (1 / 10)); [lra|reflexivity].
  - destruct (Rgt_dec z (1 / 10)); lra.
Qed.

End Zoom.


Lemma minus_key_goes_below_wheel_bound_witness :
  (0 < zoom (keyPressEvent Key_Minus (mkViewState (3 / 20) 0 0)) < 1 / 10)%R.
Proof.
  apply (minus_key_goes_below_wheel_bound (mkViewState (3 / 20) 0 0)).
  simpl. lra.
Defined.

(** X20: the arrow keys pan by 20 and leave the zoom factor alone; as
    long as the offset stays within [int], up and down undo each other,
    and so do left and right. *)
Theorem arrow_keys_undo_each_other (s : ViewState) :
  (- 2 ^ 31 <= offset_x s - 20)%Z -> (offset_x s + 20 < 2 ^ 31)%Z ->
  (- 2 ^ 31 <= offset_y s - 20)%Z -> (offset_y s + 20 < 2 ^ 31)%Z ->
  keyPressEvent Key_Down (keyPressEvent Key_Up s) = s /\
  keyPressEvent Key_Up (keyPressEvent Key_Down s) = s /\
  keyPressEvent Key_Right (keyPressEvent Key_Left s) = s /\
  keyPressEvent Key_Left (keyPressEvent Key_Right s) = s /\
  offset_y (keyPressEvent Key_Up s) = (offset_y s + 20)%Z /\
  offset_x (keyPressEvent Key_Left s) = (offset_x s + 20)%Z.
Proof.
  destruct s as [z ox oy]. simpl. intros H1 H2 H3 H4.
  unfold int_add.
  rewrite !(to_int_small (ox + 0)), !(to_int_small (oy + 0)) by lia.
  rewrite !(to_int_small (ox + 20)), !(to_int_small (oy + 20)) by lia.
  rewrite !(to_int_small (ox + -20)), !(to_int_small (oy + -20)) by lia.
  rewrite !to_int_small by lia.
  repeat split; f_equal; lia.
Qed.

Lemma arrow_keys_undo_each_other_witness :
  keyPressEvent Key_Down (keyPressEvent Key_Up (mkViewState 1 0 0))
  = mkViewState 1 0 0.
Proof.
  apply (arrow_keys_undo_each_other (mkViewState 1 0 0)); simpl; lia.
Defined.

(** * The team info drawing *)

Section DrawDigit.

Local Open Scope Z_scope.

Lemma array_at_colors (c : Z) :
  is_Some (array_at drawDigit_colors c) <-> 0 <= c <= 9.
Proof.
  unfold array_at. destruct (c <? 0) eqn:E.
  - apply Z.ltb_lt in E. split; [intros [? H]; discriminate H|lia].
  - apply Z.ltb_ge in E. rewrite lookup_lt_is_Some. simpl. lia.
Qed.

Lemma array_at_digits (d : Z) :
  is_Some (array_at drawDigit_digits d) <-> 0 <= d <= 9.
Proof.
  unfold array_at. destruct (d <? 0) eqn:E.
  - apply Z.ltb_lt in E. split; [intros [? H]; discriminate H|lia].
  - apply Z.ltb_ge in E. rewrite lookup_lt_is_Some. simpl. lia.
Qed.

(** The ten patterns, by digit. *)
Lemma digit_cases (n : Z) :
  0 <= n <= 9 -> In n [0; 1; 2; 3; 4; 5; 6; 7; 8; 9].
Proof. simpl. lia. Qed.

Lemma drawDigit_segment_without_color
    (pattern : Z) (pos : Vector3f) (size : R) (c : Z) (i : nat) :
  array_at drawDigit_colors c = None ->
  (Z.land pattern (Z.shiftl 1 (Z.of_nat i)) =? 0) = false ->
  drawDigit_segment pattern pos size c i = None.
Proof.
  intros Hc Hbit. unfold drawDigit_segment. rewrite Hbit, Hc.
  destruct (drawDigit_points !! i); [|reflexivity].
  destruct (drawDigit_points !! (i + 1)%nat); reflexivity.
Qed.

Lemma drawDigit_loop_none
    (rounds : list nat) (pattern : Z) (pos : Vector3f) (size : R) (c : Z)
    (i : nat) :
  In i rounds ->
  drawDigit_segment pattern pos size c i = None ->
  drawDigit_loop rounds pattern pos size c = None.
Proof.
  intros Hin Hnone. induction rounds as [|k rounds IH]; [destruct Hin|].
  simpl. destruct Hin as [->|Hin].
  - rewrite Hnone. reflexivity.
  - rewrite (IH Hin). destruct (drawDigit_segment pattern pos size c k); reflexivity.
Qed.

(** Without a colour of the table, no pattern of the table can be drawn:
    each of them has a segment. *)
Lemma drawDigit_loop_without_color
    (n : Z) (pos : Vector3f) (size : R) (c : Z) (pattern : Z) :
  array_at drawDigit_digits n = Some pattern ->
  array_at drawDigit_colors c = None ->
  drawDigit_loop (seq 0 7) pattern pos size c = None.
Proof.
  intros Hn Hc.
  assert (0 <= n <= 9) as Hr by (apply array_at_digits; eauto).
  assert (existsb (fun i => negb (Z.land pattern (Z.shiftl 1 (Z.of_nat i)) =? 0))
            (seq 0 7) = true) as Hbit.
  { pose proof (digit_cases n Hr) as Hcase. simpl in Hcase.
    repeat (destruct Hcase as [<-|Hcase];
            [injection Hn as <-; reflexivity|]).
    destruct Hcase. }
  apply existsb_exists in Hbit. destruct Hbit as (i & Hin & Hi).
  apply negb_true_iff in Hi.
  apply (drawDigit_loop_none _ _ _ _ _ i Hin).
  apply drawDigit_segment_without_color; assumption.
Qed.

Lemma drawDigit_segment_with_color
    (pattern : Z) (pos : Vector3f) (size : R) (c : Z) (i : nat) :
  (i < 7)%nat -> 0 <= c <= 9 ->
  is_Some (drawDigit_segment pattern pos size c i).
Proof.
  intros Hi Hc. unfold drawDigit_segment.
  destruct (Z.land pattern _ =? 0); [eexists; reflexivity|].
  destruct (lookup_lt_is_Some_2 drawDigit_points i) as [p0 ->]; [simpl; lia|].
  destruct (lookup_lt_is_Some_2 drawDigit_points (i + 1)) as [p1 ->];
    [simpl; lia|].
  destruct (proj2 (array_at_colors c) Hc) as [col ->].
  eexists; reflexivity.
Qed.

Lemma drawDigit_loop_with_color
    (rounds : list nat) (pattern : Z) (pos : Vector3f) (size : R) (c : Z) :
  Forall (fun i => (i < 7)%nat) rounds -> 0 <= c <= 9 ->
  is_Some (drawDigit_loop rounds pattern pos size c).
Proof.
  intros Hr Hc. induction Hr as [|i rounds Hi _ IH]; simpl.
  - eexists; reflexivity.
  - destruct (drawDigit_segment_with_color pattern pos size c i Hi Hc) as [l ->].
    destruct IH as [ls ->]. eexists; reflexivity.
Qed.

Lemma drawDigit_is_Some
    (digit : Z) (pos : Vector3f) (size : R) (teamColor : Z) :
  is_Some (drawDigit digit pos size teamColor)
  <-> - 9 <= digit <= 9 /\ 0 <= teamColor <= 9.
Proof.
  unfold drawDigit.
  destruct (array_at drawDigit_digits (Z.abs digit)) as [pattern|] eqn:Ed.
  - assert (0 <= Z.abs digit <= 9) as Hd by (apply array_at_digits; eauto).
    split.
    + intros Hs. split; [lia|].
      apply array_at_colors.
      destruct (array_at drawDigit_colors teamColor) eqn:Ec; [eauto|].
      rewrite (drawDigit_loop_without_color _ pos size _ _ Ed Ec) in Hs.
      destruct Hs as [? H]; discriminate H.
    + intros [_ Hc]. apply drawDigit_loop_with_color; [|exact Hc].
      repeat constructor.
  - split; [intros [? H]; discriminate H|].
    intros [Hd _]. exfalso.
    assert (is_Some (array_at drawDigit_digits (Z.abs digit))) as [? H]
      by (apply array_at_digits; lia).
    congruence.
Qed.

(** X21: [drawDigit] reads its tables within bounds exactly for the
    digits -9 .. 9 and the team colours 0 .. 9; the sign of the digit
    makes no difference to what is drawn. *)
Theorem drawDigit_table_bounds
    (digit : Z) (pos : Vector3f) (size : R) (teamColor : Z) :
  (is_Some (drawDigit digit pos size teamColor)
   <-> - 9 <= digit <= 9 /\ 0 <= teamColor <= 9) /\
  drawDigit (- digit) pos size teamColor = drawDigit digit pos size teamColor.
Proof.
  split; [apply drawDigit_is_Some|].
  unfold drawDigit. rewrite Z.abs_opp. reflexivity.
Qed.

(** X22: [TeamInfo::draw] can draw the scores -99 .. 99 only: for a
    score of 100 or more the tens digit [score / 10] lies beyond the ten
    patterns of [drawDigit]. *)
Theorem TeamInfo_draw_score_bounds (teamNumber score teamColour : Z) :
  is_Some (TeamInfo_draw teamNumber score teamColour)
  <-> - 99 <= score <= 99 /\ 0 <= teamColour <= 9.
Proof.
  unfold TeamInfo_draw.
  set (x := if teamNumber =? 1 then _ else _).
  pose proof (drawDigit_is_Some (Z.quot score 10)
                (mkVector3 x 3500%R 1000%R) 200%R teamColour) as Ht.
  pose proof (drawDigit_is_Some (Z.rem score 10)
                (mkVector3 (x + 270)%R 3500%R 1000%R) 200%R teamColour)
    as Ho.
  destruct (drawDigit (Z.quot score 10) _ _ _) as [tens|].
  - destruct (drawDigit (Z.rem score 10) _ _ _) as [ones|].
    + split; [intros _|intros _; eexists; reflexivity].
      destruct (proj1 Ht) as [Hq Hc]; [eexists; reflexivity|].
      split; [|exact Hc]. Z.quot_rem_to_equations. lia.
    + split; [intros [? H]; discriminate H|].
      intros [Hs Hc]. exfalso.
      destruct (proj2 Ho) as [? H]; [|discriminate H].
      split; [|exact Hc]. Z.quot_rem_to_equations. lia.
  - split; [intros [? H]; discriminate H|].
    intros [Hs Hc]. exfalso.
    destruct (proj2 Ht) as [? H]; [|discriminate H].
    split; [|exact Hc]. Z.quot_rem_to_equations. lia.
Qed.

End DrawDigit.

Section DrawDigitLines.

Lemma drawDigit_segment_line
    (pattern : Z) (pos : Vector3f) (size : R) (c : Z) (i : nat)
    (ls : list Line3D) :
  i < 7 ->
  drawDigit_segment pattern pos size c i = Some ls ->
  Forall (segmentLine pos size c) ls /\
  length ls
  = length (List.filter
              (fun k => negb (Z.land pattern (Z.shiftl 1 (Z.of_nat k)) =? 0)%Z)
              [i]).
Proof.
  intros Hi. unfold drawDigit_segment. simpl List.filter.
  destruct (Z.land pattern _ =? 0)%Z.
  - intros [= <-]. split; [constructor|reflexivity].
  - destruct (array_at drawDigit_colors c) as [col|] eqn:Ec.
    + do 7 (destruct i as [|i];
              [simpl; intros [= <-]; split; [|reflexivity];
               constructor; [|constructor];
               unfold segmentLine; simpl;
               repeat split; try ring; exact Ec|]).
      lia.
    + destruct (drawDigit_points !! i); [|discriminate].
      destruct (drawDigit_points !! (i + 1)); discriminate.
Qed.

Lemma drawDigit_loop_lines
    (rounds : list nat) (pattern : Z) (pos : Vector3f) (size : R) (c : Z)
    (ls : list Line3D) :
  Forall (fun i => i < 7) rounds ->
  drawDigit_loop rounds pattern pos size c = Some ls ->
  Forall (segmentLine pos size c) ls /\
  length ls
  = length (List.filter
              (fun k => negb (Z.land pattern (Z.shiftl 1 (Z.of_nat k)) =? 0)%Z)
              rounds).
Proof.
  intros Hr. revert ls. induction Hr as [|i rounds Hi _ IH]; intros ls; simpl.
  - intros [= <-]. split; [constructor|reflexivity].
  - destruct (drawDigit_segment pattern pos size c i) as [l|] eqn:El;
      [|discriminate].
    destruct (drawDigit_loop rounds pattern pos size c) as [ls'|];
      [|discriminate].
    intros [= <-].
    destruct (drawDigit_segment_line _ _ _ _ _ _ Hi El) as [Hl Hn].
    destruct (IH ls' eq_refl) as [Hls Hm].
    split; [apply Forall_app; split; assumption|].
    rewrite length_app, Hn, Hm. simpl.
    destruct (negb _); reflexivity.
Qed.

(** X23: [drawDigit] draws a digit as the lit segments of a
    seven-segment display: 6, 2, 5, 5, 4, 5, 6, 3, 7 and 6 lines for the
    digits 0 to 9, each of length [size] in the plane through [pos] across
    the y axis, of width 2 and in the team's colour. *)
Theorem drawDigit_seven_segments
    (digit : Z) (pos : Vector3f) (size : R) (teamColor : Z)
    (lines : list Line3D) :
  drawDigit digit pos size teamColor = Some lines ->
  Forall (segmentLine pos size teamColor) lines /\
  length lines = nth (Z.to_nat (Z.abs digit)) [6; 2; 5; 5; 4; 5; 6; 3; 7; 6] 0.
Proof.
  unfold drawDigit.
  destruct (array_at drawDigit_digits (Z.abs digit)) as [pattern|] eqn:Ed;
    [|discriminate].
  intros Hl.
  destruct (drawDigit_loop_lines (seq 0 7) pattern pos size teamColor lines)
    as [Hlines Hcount]; [repeat constructor|exact Hl|].
  split; [exact Hlines|]. rewrite Hcount.
  assert (0 <= Z.abs digit <= 9)%Z as Hr by (apply array_at_digits; eauto).
  pose proof (digit_cases _ Hr) as Hcase. simpl in Hcase.
  repeat (destruct Hcase as [E|Hcase];
          [rewrite <- E in Ed |- *; injection Ed as <-; reflexivity|]).
  destruct Hcase.
Qed.

End DrawDigitLines.

Lemma drawDigit_seven_segments_witness :
  exists lines : list Line3D,
    drawDigit 8 (@mkVector3 R_scalar 0%R 3500%R 1000%R) 200%R 1 = Some lines /\
    length lines = 7.
Proof.
  destruct (drawDigit 8 (@mkVector3 R_scalar 0%R 3500%R 1000%R) 200%R 1)
    as [lines|] eqn:E; [|discriminate E].
  exists lines. split; [reflexivity|].
  exact (proj2 (drawDigit_seven_segments 8 (@mkVector3 R_scalar 0%R 3500%R 1000%R)
                  200%R 1 lines E)).
Defined.

(** * Painting, clicking and dragging *)

Section Repaint.

Local Open Scope Z_scope.

Variable freshTimeStamp : Z.
Variable console : RobotConsole.

Lemma later_of_two (t last : Z) :
  last <= (if t >? last then t else last) /\
  t <= (if t >? last then t else last).
Proof.
  rewrite Z.gtb_ltb. destruct (last <? t) eqn:E.
  - apply Z.ltb_lt in E. lia.
  - apply Z.ltb_ge in E. lia.
Qed.

Lemma paintDrawings_step_ge (last : Z) (drawing : string) :
  last <= paintDrawings_step console last drawing.
Proof.
  unfold paintDrawings_step.
  destruct (camImageDrawings console !! drawing) as [t|];
    destruct (motionImageDrawings console !! drawing) as [u|];
    try lia.
  - pose proof (later_of_two t last).
    pose proof (later_of_two u (if t >? last then t else last)). lia.
  - pose proof (later_of_two t last). lia.
  - pose proof (later_of_two u last). lia.
Qed.

Lemma paintDrawings_step_covers (last : Z) (drawing : string) (t : Z) :
  camImageDrawings console !! drawing = Some t
  \/ motionImageDrawings console !! drawing = Some t ->
  t <= paintDrawings_step console last drawing.
Proof.
  unfold paintDrawings_step. intros [H|H]; rewrite H.
  - pose proof (later_of_two t last).
    destruct (motionImageDrawings console !! drawing) as [u|]; [|lia].
    pose proof (later_of_two u (if t >? last then t else last)). lia.
  - destruct (camImageDrawings console !! drawing) as [u|].
    + pose proof (later_of_two t (if u >? last then u else last)). lia.
    + pose proof (later_of_two t last). lia.
Qed.

Lemma fold_paintDrawings_ge (drawings : list string) (last : Z) :
  last <= fold_left (paintDrawings_step console) drawings last.
Proof.
  revert last. induction drawings as [|d ds IH]; intros last; simpl; [lia|].
  pose proof (paintDrawings_step_ge last d). pose proof (IH (paintDrawings_step console last d)).
  lia.
Qed.

Lemma fold_paintDrawings_covers
    (drawings : list string) (last : Z) (drawing : string) (t : Z) :
  In drawing drawings ->
  camImageDrawings console !! drawing = Some t
  \/ motionImageDrawings console !! drawing = Some t ->
  t <= fold_left (paintDrawings_step console) drawings last.
Proof.
  revert last. induction drawings as [|d ds IH]; intros last Hin Ht; [destruct Hin|].
  simpl. destruct Hin as [->|Hin].
  - pose proof (paintDrawings_step_covers last drawing t Ht).
    pose proof (fold_paintDrawings_ge ds (paintDrawings_step console last drawing)).
    lia.
  - apply IH; assumption.
Qed.

(** X24: right after [paint], [needsRepaint] answers no, provided every
    drawing of the view exists among the image drawings (so that the
    lookup of [needsRepaint] creates none). *)
Theorem no_repaint_after_paint
    (background name : string) (s : PaintState) :
  (forall drawing, In drawing (drawingsOfView console name) ->
     is_Some (camImageDrawings console !! drawing)) ->
  needsRepaint freshTimeStamp console background name
    (paint console background name s) = false.
Proof.
  intros Hall. unfold needsRepaint, paint. simpl.
  destruct (camImages console !! background) as [image|].
  - unfold paintImage.
    destruct (img_timeStamp image =? lastImageTimeStamp s) eqn:E; simpl.
    + rewrite E. reflexivity.
    + rewrite Z.eqb_refl. reflexivity.
  - replace (existsb _ _) with false; [reflexivity|].
    symmetry. apply not_true_is_false. intros Hex.
    apply existsb_exists in Hex. destruct Hex as (d & Hin & Hgt).
    destruct (Hall d Hin) as [t Ht]. rewrite Ht in Hgt. simpl in Hgt.
    rewrite Z.gtb_ltb in Hgt. apply Z.ltb_lt in Hgt.
    pose proof (fold_paintDrawings_covers (drawingsOfView console name)
                  (lastDrawingsTimeStamp s) d t Hin (or_introl Ht)) as Hle.
    unfold paintDrawings in Hgt. lia.
Qed.

(** X25: [paint] never moves [lastDrawingsTimeStamp] back, whatever the
    view lists, and leaves it at or after the time stamp of every image
    drawing and every motion drawing listed for the view. *)
Theorem paint_advances_lastDrawingsTimeStamp
    (background name : string) (s : PaintState) :
  lastDrawingsTimeStamp s
    <= lastDrawingsTimeStamp (paint console background name s) /\
  (forall (drawing : string) (t : Z),
     In drawing (drawingsOfView console name) ->
     camImageDrawings console !! drawing = Some t
     \/ motionImageDrawings console !! drawing = Some t ->
     t <= lastDrawingsTimeStamp (paint console background name s)).
Proof.
  unfold paint, paintDrawings. simpl. split.
  - apply fold_paintDrawings_ge.
  - intros drawing t Hin Ht. eapply fold_paintDrawings_covers; eassumption.
Qed.

End Repaint.

Section Mouse.

Variable window2viewport : Z * Z -> Z * Z.
Variable name : string.
Variable upperCam : bool.

(** X26: a press with the left or the middle button and a release
    without shift make a click when both are at the same position, with
    exactly one [fireClick] at the viewport position, flagged unless
    control is held; they make a drag, with nothing asked of the console,
    when the positions differ.  Either way no drag is in progress
    afterwards. *)
Theorem press_and_release_click_or_drag
    (offset : Z * Z) (press release : QMouseEvent) (s : MouseState) :
  ev_button press <> OtherButton ->
  ev_shift release = false ->
  let s1 := mousePressEvent offset press s in
  let result := mouseReleaseEvent window2viewport name upperCam release s1 in
  dragStart (fst result) = noDrag /\
  (ev_pos release = ev_pos press ->
   snd result =
     [fireClick name (window2viewport (ev_pos release)) upperCam
        (negb (ev_control release))]) /\
  (ev_pos release <> ev_pos press -> ev_pos press <> noDrag ->
   snd result = []).
Proof.
  intros Hb Hs s1 result.
  assert (dragStart s1 = ev_pos press) as Hd.
  { unfold s1, mousePressEvent. destruct (ev_button press); [reflexivity..|].
    contradiction. }
  subst result. unfold mouseReleaseEvent. rewrite Hd, Hs.
  split; [|split].
  - destruct (negb _ && negb _); reflexivity.
  - intros Heq. rewrite Heq.
    rewrite (bool_decide_eq_true_2 _ eq_refl). simpl.
    destruct (ev_control release); reflexivity.
  - intros Hne Hnd.
    rewrite (bool_decide_eq_false_2 (ev_pos press = ev_pos release))
      by congruence.
    rewrite (bool_decide_eq_false_2 (ev_pos press = noDrag)) by exact Hnd.
    reflexivity.
Qed.

Lemma headMotionCommand_not_mode_request (v : Z * Z) (u : bool) :
  isModeRequest (handleConsole (headMotionCommand v u)) = false.
Proof.
  unfold isModeRequest, headMotionCommand.
  apply bool_decide_eq_false_2. simpl. discriminate.
Qed.

Lemma mode_request_is_mode_request :
  isModeRequest (handleConsole "mr HeadMotionRequest ManualHeadMotionProvider")
  = true.
Proof. unfold isModeRequest. apply bool_decide_eq_true_2. reflexivity. Qed.

Lemma mouseReleaseEvent_mode_requests (event : QMouseEvent) (s : MouseState) :
  let result := mouseReleaseEvent window2viewport name upperCam event s in
  length (List.filter isModeRequest (snd result))
  <= (if headControlMode s then 0 else 1) /\
  (headControlMode s = true -> headControlMode (fst result) = true) /\
  (length (List.filter isModeRequest (snd result)) = 1 ->
   headControlMode (fst result) = true).
Proof.
  unfold mouseReleaseEvent.
  destruct (negb _ && negb _); cbn [fst snd].
  - cbn. repeat split; [destruct (headControlMode s); lia|auto|discriminate].
  - destruct (ev_shift event); cbn [negb app].
    + destruct (headControlMode s); cbn [app List.filter headControlMode];
        rewrite ?mode_request_is_mode_request,
          headMotionCommand_not_mode_request;
        cbn [length]; repeat split; auto.
    + destruct (ev_control event); cbn;
        (repeat split; [destruct (headControlMode s); lia|auto|discriminate]).
Qed.

(** X27: over any sequence of presses and releases the request for
    manual head control is sent at most once, and not at all when the
    widget is in head control mode already; the mode, once on, stays
    on. *)
Theorem mode_request_sent_at_most_once
    (inputs : list MouseInput) (s : MouseState) :
  let result := runMouse window2viewport name upperCam inputs s in
  length (List.filter isModeRequest (snd result))
  <= (if headControlMode s then 0 else 1) /\
  (headControlMode s = true -> headControlMode (fst result) = true).
Proof.
  revert s. induction inputs as [|input inputs IH]; intros s; simpl.
  - split; [destruct (headControlMode s); simpl; lia|auto].
  - destruct input as [offset event|event].
    + specialize (IH (mousePressEvent offset event s)).
      assert (headControlMode (mousePressEvent offset event s)
              = headControlMode s) as Hh.
      { unfold mousePressEvent. destruct (ev_button event); reflexivity. }
      rewrite Hh in IH. exact IH.
    + pose proof (mouseReleaseEvent_mode_requests event s) as Hr.
      destruct (mouseReleaseEvent window2viewport name upperCam event s)
        as [s1 acts].
      specialize (IH s1).
      destruct (runMouse window2viewport name upperCam inputs s1)
        as [s2 acts'].
      simpl in *. destruct Hr as (Hle & Hkeep & Hone).
      destruct IH as (IHle & IHkeep).
      rewrite List.filter_app, length_app.
      split.
      * destruct (headControlMode s) eqn:Es.
        -- rewrite (Hkeep eq_refl) in IHle. lia.
        -- destruct (headControlMode s1) eqn:E1; [lia|].
           assert (length (List.filter isModeRequest acts) <> 1)
             by (intros E; specialize (Hone E); discriminate).
           lia.
      * intros Hs. apply IHkeep, Hkeep, Hs.
Qed.

End Mouse.

Lemma no_repaint_after_paint_witness :
  needsRepaint 0
    (mkRobotConsole ∅ (<["upper" := ["lines"]]> ∅) (<["lines" := 40%Z]> ∅) ∅)
    "raw image" "upper"
    (paint
       (mkRobotConsole ∅ (<["upper" := ["lines"]]> ∅) (<["lines" := 40%Z]> ∅) ∅)
       "raw image" "upper" (mkPaintState 7 0))
  = false.
Proof.
  apply (no_repaint_after_paint 0
           (mkRobotConsole ∅ (<["upper" := ["lines"]]> ∅)
              (<["lines" := 40%Z]> ∅) ∅)).
  intros drawing [<-|[]]. eexists. reflexivity.
Defined.

Lemma paint_advances_lastDrawingsTimeStamp_witness :
  (40 <= lastDrawingsTimeStamp
           (paint
              (mkRobotConsole ∅ (<["upper" := ["lines"]]> ∅)
                 (<["lines" := 40%Z]> ∅) ∅)
              "raw image" "upper" (mkPaintState 7 0)))%Z.
Proof.
  refine (proj2 (paint_advances_lastDrawingsTimeStamp
                   (mkRobotConsole ∅ (<["upper" := ["lines"]]> ∅)
                      (<["lines" := 40%Z]> ∅) ∅)
                   "raw image" "upper" (mkPaintState 7 0)) "lines" 40%Z _ _).
  - left. reflexivity.
  - left. reflexivity.
Defined.

Lemma press_and_release_click_or_drag_witness :
  snd (mouseReleaseEvent (fun p => p) "upper" true
         (mkQMouseEvent (10, 20)%Z LeftButton false false)
         (mousePressEvent (0, 0)%Z
            (mkQMouseEvent (10, 20)%Z LeftButton false false)
            (mkMouseState noDrag (0, 0)%Z false)))
  = [fireClick "upper" (10, 20)%Z true true].
Proof.
  refine (proj1 (proj2 (press_and_release_click_or_drag (fun p => p) "upper" true
            (0, 0)%Z (mkQMouseEvent (10, 20)%Z LeftButton false false)
            (mkQMouseEvent (10, 20)%Z LeftButton false false)
            (mkMouseState noDrag (0, 0)%Z false) _ _)) _).
  - discriminate.
  - reflexivity.
  - reflexivity.
Defined.

(** Two clicks with shift: the mode is requested before the first target
    only. *)
Example two_shift_clicks :
  snd (runMouse (fun p => p) "upper" true
         [ Release (mkQMouseEvent (10, 20)%Z LeftButton true false);
           Release (mkQMouseEvent (-3, 7)%Z LeftButton true false) ]
         (mkMouseState noDrag (0, 0)%Z false))
  = [ handleConsole "mr HeadMotionRequest ManualHeadMotionProvider";
      handleConsole
        "set parameters:ManualHeadMotionProvider xImg = 10; yImg = 20; camera = upper;";
      handleConsole
        "set parameters:ManualHeadMotionProvider xImg = -3; yImg = 7; camera = upper;" ].
Proof. vm_compute. reflexivity. Qed.

Lemma mode_request_sent_at_most_once_witness :
  length
    (List.filter isModeRequest
       (snd (runMouse (fun p => p) "upper" true
               [ Release (mkQMouseEvent (10, 20)%Z LeftButton true false);
                 Release (mkQMouseEvent (-3, 7)%Z LeftButton true false) ]
               (mkMouseState noDrag (0, 0)%Z false))))
  <= 1.
Proof.
  exact (proj1 (mode_request_sent_at_most_once (fun p => p) "upper" true
                  [ Release (mkQMouseEvent (10, 20)%Z LeftButton true false);
                    Release (mkQMouseEvent (-3, 7)%Z LeftButton true false) ]
                  (mkMouseState noDrag (0, 0)%Z false))).
Defined.
